(** * gofmbt: model-based test generation

    A shallow embedding of the Go package [gofmbt] (model.go, walk.go,
    cover.go and the player model of model_test.go), followed by the
    properties established about path enumeration, coverage accounting
    and best-path selection. *)

From Stdlib Require Import ZArith String List Lia DecimalString.
From stdpp Require Import base option list gmap strings.


(** ** Outcomes of Go calls

    A call either returns, panics (index or slice bound out of range,
    [make] with a length that is negative or more than the runtime
    allocates, where [Panic] also stands for the runtime giving up on
    the program), or is cut off by the recursion budget that stands
    for the Go stack. *)

Inductive result (A : Type) : Type :=
| Ok (a : A)
| Panic
| OutOfFuel.
Arguments Ok {A} a.
Arguments Panic {A}.
Arguments OutOfFuel {A}.

#[global] Instance result_ret : MRet result := fun A a => Ok a.
#[global] Instance result_bind : MBind result := fun A B f r =>
  match r with
  | Ok a => f a
  | Panic => Panic
  | OutOfFuel => OutOfFuel
  end.

(** Go's [int] on a 64-bit platform: two's complement wrap-around. *)
Definition int_wrap (z : Z) : Z := ((z + 2 ^ 63) `mod` 2 ^ 64 - 2 ^ 63)%Z.
Definition int_add (a b : Z) : Z := int_wrap (a + b).
Definition int_sub (a b : Z) : Z := int_wrap (a - b).

(** Modelled from the spec: the declaration of the [State] interface is
    not among the sources; the spec and doc.go say that a state only has
    to render to a string ([String() string]). *)
Class Stringer (State : Type) := StateString : State -> string.

(** ** action.go, transition.go, step.go *)

(** [Action.args] only feeds [fmt.Sprintf] when the action is built;
    [name] stores the rendering, [format] the unparameterised text. *)
Record Action : Type := mkAction {
  name : string;
  format : string
}.

(** What the Go runtime and [math/rand] decide, as parameters of the
    model. [growslice oldCap needed] is the capacity [append] picks when
    it has to move a slice to a new array. [rand_Shuffle r n] is the
    sequence of calls [swap(i, j)] that [r.Shuffle(n, swap)] makes, with
    the generator state it leaves behind. [makeslice_max] is the largest
    [n] for which [make([]*Step, n, n)] returns a slice: for a larger
    [n] the runtime panics (makeslice: len out of range) or stops the
    program (out of memory). *)
Class GoRuntime : Type := {
  growslice : nat -> nat -> nat;
  makeslice_max : Z;
  Rand : Type;
  rand_New : Z -> Rand;
  rand_Shuffle : Rand -> Z -> list (Z * Z) * Rand
}.

(** The contract of [Shuffle]: it only swaps indices below [n]. *)
Class ShuffleInRange (rt : GoRuntime) : Prop :=
  shuffle_in_range : forall (r : Rand) (n : Z) (i j : Z),
    In (i, j) (fst (rand_Shuffle r n)) -> (0 <= i < n)%Z /\ (0 <= j < n)%Z.

Section Gofmbt.
Context {State : Type} {stringer : Stringer State} {rt : GoRuntime}.

(** [StateChange]: a Go [nil] result ("not possible here") is [None]. *)
Local Abbreviation StateChange := (State -> option State) (only parsing).

Record Transition : Type := NewTransition {
  tr_action : Action;
  tr_stateChange : StateChange
}.

Local Abbreviation TransitionGen := (State -> list Transition) (only parsing).

Record Step : Type := NewStep {
  start : State;
  action : Action;
  end_ : State
}.

Definition StartState (step : Step) : State := start step.
Definition EndState (step : Step) : State := end_ step.

(** [Path] is [[]*Step]; the paths handed around by [Model] and
    [Coverer] hold steps made by [NewStep], never a nil pointer. *)
Local Abbreviation Path := (list Step) (only parsing).

Definition NewPath (steps : list Step) : Path :=
  fold_left (fun path step => path ++ [step]) steps [].

(** ** model.go *)

Record Model : Type := mkModel {
  gen : list TransitionGen
}.

Definition NewModel : Model := {| gen := [] |}.

Definition From (m : Model) (transitionGen : TransitionGen) : Model :=
  {| gen := gen m ++ [transitionGen] |}.

Definition TransitionsFrom (m : Model) (s : State) : list Transition :=
  fold_left (fun ts g => ts ++ g s) (gen m) [].

Definition StepsFrom (m : Model) (s : State) : list Step :=
  fold_left
    (fun steps t =>
       match tr_stateChange t s with
       | Some endState => steps ++ [NewStep s (tr_action t) endState]
       | None => steps
       end)
    (TransitionsFrom m s) [].

(** The [for _, step := range m.StepsFrom(s)] loop of [Model.Paths];
    [rec] is the recursive call [m.Paths(_, maxLen-1)]. *)
Fixpoint Paths_loop (rec : State -> result (list Path))
    (steps : list Step) (paths : list Path) : result (list Path) :=
  match steps with
  | [] => Ok paths
  | step :: steps' =>
      let newPath := NewPath [step] in
      childPaths ← rec (EndState step);
      if (length childPaths =? 0)%nat
      then Paths_loop rec steps' (paths ++ [newPath])
      else Paths_loop rec steps'
             (fold_left (fun paths childPath => paths ++ [newPath ++ childPath])
                        childPaths paths)
  end.

(** [Model.Paths]. Both [nil] and the empty [[]Path{}] are the empty
    list. The recursion is on [fuel]: for a negative [maxLen] the Go
    recursion only stops at dead ends. *)
Fixpoint Paths (fuel : nat) (m : Model) (s : State) (maxLen : Z)
    : result (list Path) :=
  match fuel with
  | O => OutOfFuel
  | S fuel' =>
      if (maxLen =? 0)%Z then Ok []
      else
        paths ← Paths_loop (fun s' => Paths fuel' m s' (int_sub maxLen 1))
                           (StepsFrom m s) [];
        if (length paths =? 0)%nat then Ok [] else Ok paths
  end.

(** ** walk.go *)

Local Abbreviation StepFilter := (list Step -> list Step) (only parsing).

Record Walker : Type := mkWalker {
  w_m : Model;
  stepFilter : option StepFilter
}.

Definition NewWalker (m : Model) : Walker :=
  {| w_m := m; stepFilter := None |}.

Definition SetStepFilter (w : Walker) (f : StepFilter) : Walker :=
  {| w_m := w_m w; stepFilter := Some f |}.

(** The buffer shared by all yields: a [[]*Step] of length [maxLen],
    [None] being the nil pointer [make] fills it with. *)
Local Abbreviation PathBuf := (list (option Step)) (only parsing).

Section Yield.
(** The consumer of the iterator: its own state [A], and [yield], which
    sees the current contents of the yielded slice and says whether to
    go on. *)
Context {A : Type} (yield : A -> PathBuf -> A * bool).

Fixpoint yieldSteps (rec : A -> PathBuf -> State -> result (bool * A * PathBuf))
    (index : Z) (nextSteps : list Step) (a : A) (path : PathBuf)
    : result (bool * A * PathBuf) :=
  match nextSteps with
  | [] => Ok (true, a, path)
  | step :: nextSteps' =>
      (* path[index] = step, through the pointer *)
      if ((index <? 0) || (Z.of_nat (length path) <=? index))%Z then Panic
      else
        let path := <[Z.to_nat index := Some step]> path in
        '(more, a, path) ← rec a path (EndState step);
        if negb more then Ok (false, a, path)
        else yieldSteps rec index nextSteps' a path
  end.

Fixpoint yieldPaths (fuel : nat) (w : Walker) (a : A) (path : PathBuf)
    (index : Z) (s : State) (maxLen : Z) : result (bool * A * PathBuf) :=
  match fuel with
  | O => OutOfFuel
  | S fuel' =>
      if (index =? maxLen)%Z then
        let '(a, more) := yield a path in Ok (more, a, path)
      else
        let nextSteps := StepsFrom (w_m w) s in
        let nextSteps :=
          match stepFilter w with
          | Some f => f nextSteps
          | None => nextSteps
          end in
        if (length nextSteps =? 0)%nat then
          (* yield path[:index] *)
          if ((index <? 0) || (Z.of_nat (length path) <? index))%Z then Panic
          else
            let '(a, more) := yield a (take (Z.to_nat index) path) in
            Ok (more, a, path)
        else
          yieldSteps
            (fun a path s' => yieldPaths fuel' w a path (int_add index 1) s' maxLen)
            index nextSteps a path
  end.

(** [IterPaths] followed by the consumption of the sequence, starting
    from consumer state [a]. *)
Definition IterPaths (fuel : nat) (w : Walker) (s : State) (maxLen : Z)
    (a : A) : result A :=
  (* make(Path, maxLen, maxLen) *)
  if ((maxLen <? 0) || (makeslice_max <? maxLen))%Z then Panic
  else
    let path : PathBuf := replicate (Z.to_nat maxLen) None in
    '(_, a, _) ← yieldPaths fuel w a path 0 s maxLen;
    Ok a.
End Yield.

(** The loop body of [Walker.Paths]: copy the yielded slice, keep it,
    never break. The copy is made with [make(Path, len(path))]; a
    yielded slice is never longer than the buffer [IterPaths] has
    made, so this length is one [make] has returned for already. *)
Definition collect (paths : list PathBuf) (path : PathBuf) : list PathBuf * bool :=
  let pathCopy := path in
  (paths ++ [pathCopy], true).

Definition Walker_Paths (fuel : nat) (w : Walker) (s : State) (maxLen : Z)
    : result (list PathBuf) :=
  IterPaths collect fuel w s maxLen [].

(** ** cover.go *)

Definition BestPathRandomNone : Z := 0.
Definition BestPathRandomAmongEquallyGood : Z := 1.
Definition BestPathRandomAmongFastestMaxCoverageIncrease : Z := 2.
Definition BestPathRandomAmongMaxCoverageIncrease : Z := 3.
Definition BestPathRandomAmongAnyPath : Z := 4.

Local Abbreviation CoveredInPath := (Path -> list string) (only parsing).

(** A slice of steps together with the rest of its backing array:
    [elems] are the [len] visible elements, [spare] the [cap - len]
    cells behind them, which [append] may fill in place. *)
Record Slice : Type := mkSlice {
  elems : Path;
  spare : list (option Step)
}.

Definition len (sl : Slice) : nat := length (elems sl).
Definition cap (sl : Slice) : nat := (length (elems sl) + length (spare sl))%nat.

(** [sl[low:]]: same backing array, so the same spare cells. *)
Definition slice_from (sl : Slice) (low : Z) : result Slice :=
  if ((low <? 0) || (Z.of_nat (len sl) <? low))%Z then Panic
  else Ok {| elems := drop (Z.to_nat low) (elems sl); spare := spare sl |}.

(** [append(sl, path...)]: the resulting slice, and the contents of the
    cells behind [sl] in its backing array after the call. With enough
    capacity the new elements are written into those cells; otherwise
    the result lives in a fresh array and the old one is left alone. *)
Definition append (sl : Slice) (path : Path) : Slice * list (option Step) :=
  if (length path <=? length (spare sl))%nat then
    ({| elems := elems sl ++ path; spare := drop (length path) (spare sl) |},
     (Some <$> path) ++ drop (length path) (spare sl))
  else
    let newLen := (len sl + length path)%nat in
    ({| elems := elems sl ++ path;
        spare := replicate (growslice (cap sl) newLen - newLen) None |},
     spare sl).

Record Coverer : Type := mkCoverer {
  coveredPath : Slice;
  coverCount : gmap string Z;
  covFuncs : list CoveredInPath;
  historyLen : Z;
  rand : option Rand;
  randomness : Z
}.

Definition NewCoverer : Coverer :=
  {| coveredPath := {| elems := []; spare := [] |};
     coverCount := ∅;
     covFuncs := [];
     historyLen := 0;
     rand := None;
     randomness := 0 |}.

Definition ActionNames (path : Path) : list string :=
  fold_left (fun names t => names ++ [name (action t)]) path [].

Definition ActionFormats (path : Path) : list string :=
  fold_left (fun formats t => formats ++ [format (action t)]) path [].

Definition StateStrings (path : Path) : list string :=
  match path with
  | [] => []
  | step0 :: _ =>
      fold_left (fun s step => s ++ [StateString (end_ step)]) path
                [StateString (start step0)]
  end.

(** The separator of joined items, [\x00]. *)
Definition sep0 : string := String (Ascii.ascii_of_nat 0) EmptyString.

(** [strings.Join]. *)
Definition Join (elems : list string) (sep : string) : string :=
  String.concat sep elems.

Definition StateActionStrings (path : Path) : list string :=
  let stateActionSep := sep0 in
  fold_left
    (fun stateActions step =>
       stateActions ++
         [(StateString (StartState step) +:+ stateActionSep +:+ name (action step))])
    path [].

(** The two nested loops shared by the three [Cover...Combinations]
    closures: [combLen] runs over [1..combLenMax], [first] over
    [0..len(path)-combLen], and [path[first:first+combLen]] is handed to
    [items]. A [combLenMax] equal to the largest [int] (where the outer
    loop cannot end) is outside the model. *)
Definition combinations (items : Path -> list string) (sep : string)
    (combLenMax : Z) (path : Path) : list string :=
  fold_left
    (fun combs combLen =>
       fold_left
         (fun combs first =>
            combs ++ [Join (items (take combLen (drop first path))) sep])
         (seq 0 (S (length path) - combLen))
         combs)
    (seq 1 (Z.to_nat combLenMax))
    [].

Definition addCovFunc (c : Coverer) (covFunc : CoveredInPath) : Coverer :=
  {| coveredPath := coveredPath c;
     coverCount := coverCount c;
     covFuncs := covFuncs c ++ [covFunc];
     historyLen := historyLen c;
     rand := rand c;
     randomness := randomness c |}.

Definition setHistoryLen (c : Coverer) (combLenMax : Z) : Coverer :=
  if (historyLen c <? combLenMax)%Z then
    {| coveredPath := coveredPath c;
       coverCount := coverCount c;
       covFuncs := covFuncs c;
       historyLen := combLenMax;
       rand := rand c;
       randomness := randomness c |}
  else c.

Definition CoverActions (c : Coverer) : Coverer := addCovFunc c ActionNames.

Definition CoverActionFormats (c : Coverer) : Coverer :=
  addCovFunc c ActionFormats.

Definition CoverActionCombinations (c : Coverer) (combLenMax : Z) : Coverer :=
  let c := setHistoryLen c combLenMax in
  let actionSep := sep0 in
  addCovFunc c (combinations ActionNames actionSep combLenMax).

Definition CoverActionFormatCombinations (c : Coverer) (combLenMax : Z) : Coverer :=
  let c := setHistoryLen c combLenMax in
  let actionSep := sep0 in
  addCovFunc c (combinations ActionFormats actionSep combLenMax).

Definition CoverStates (c : Coverer) : Coverer := addCovFunc c StateStrings.

Definition CoverStateActions (c : Coverer) : Coverer :=
  addCovFunc c StateActionStrings.

Definition CoverStateCombinations (c : Coverer) (combLenMax : Z) : Coverer :=
  let c := setHistoryLen c combLenMax in
  let stateSep := sep0 in
  addCovFunc c (combinations StateStrings stateSep combLenMax).

Definition covFunc (c : Coverer) (path : Path) : list string :=
  fold_left (fun allCovered covFunc => allCovered ++ covFunc path) (covFuncs c) [].

Definition Coverage (c : Coverer) : Z := Z.of_nat (size (coverCount c)).

(** Reading a [map[string]int]: a missing key reads as 0. *)
Definition count (m : gmap string Z) (s : string) : Z := default 0%Z (m !! s).

(** [m[s]++]. *)
Definition incr (m : gmap string Z) (s : string) : gmap string Z :=
  <[s := int_add (count m s) 1]> m.

Definition UpdateCoverage (c : Coverer) : Coverer :=
  {| coveredPath := coveredPath c;
     coverCount := fold_left incr (covFunc c (elems (coveredPath c))) ∅;
     covFuncs := covFuncs c;
     historyLen := historyLen c;
     rand := rand c;
     randomness := randomness c |}.

Definition MarkCovered (c : Coverer) (step : list Step) : Coverer :=
  {| coveredPath := fst (append (coveredPath c) step);
     coverCount := coverCount c;
     covFuncs := covFuncs c;
     historyLen := historyLen c;
     rand := rand c;
     randomness := randomness c |}.

Record CoverageIncreaseStats : Type := mkStats {
  MaxStep : Z;
  MaxIncrease : Z;
  FirstStep : Z;
  FirstIncrease : Z
}.

(** [for _, s := range covered { if c.coverCount[s] == 0 { m[s]++ } }] *)
Definition countNew (c : Coverer) (covered : list string)
    (m : gmap string Z) : gmap string Z :=
  fold_left (fun m s => if (count (coverCount c) s =? 0)%Z then incr m s else m)
            covered m.

(** The second loop of [EstimateCoverageIncrease], with [n] iterations
    left before [i] reaches [len(pathWithHistory)]. *)
Fixpoint estimateLoop (c : Coverer) (pathWithHistory : Path) (historyLen : Z)
    (n : nat) (i : Z) (est : CoverageIncreaseStats)
    (firstCoverCount : gmap string Z) : CoverageIncreaseStats :=
  match n with
  | O => est
  | S n' =>
      let newCovered := covFunc c (take (Z.to_nat (i + 1)) pathWithHistory) in
      let firstCoverCount := countNew c newCovered firstCoverCount in
      let est :=
        if ((FirstStep est =? -1) && (0 <? Z.of_nat (size firstCoverCount)))%Z
        then {| MaxStep := MaxStep est;
                MaxIncrease := MaxIncrease est;
                FirstStep := i - historyLen;
                FirstIncrease := Z.of_nat (size firstCoverCount) |}
        else est in
      if ((MaxStep est =? -1)
          && (Z.of_nat (size firstCoverCount) =? MaxIncrease est))%Z
      then {| MaxStep := i - historyLen;
              MaxIncrease := MaxIncrease est;
              FirstStep := FirstStep est;
              FirstIncrease := FirstIncrease est |}
      else estimateLoop c pathWithHistory historyLen n' (i + 1) est firstCoverCount
  end.

(** [EstimateCoverageIncrease] returns the statistics; the Coverer is
    returned too, because [append] may write the candidate into the
    unused capacity behind [c.coveredPath]. [hLen] is the local
    [historyLen] of the source. *)
Definition EstimateCoverageIncrease (c : Coverer) (path : Path)
    : result (CoverageIncreaseStats * Coverer) :=
  let est := {| MaxStep := -1; MaxIncrease := 0; FirstStep := -1; FirstIncrease := 0 |} in
  let fullCoverCount : gmap string Z := ∅ in
  let hLen := historyLen c in
  let hLen :=
    if (hLen >? Z.of_nat (len (coveredPath c)))%Z
    then Z.of_nat (len (coveredPath c)) else hLen in
  history ← slice_from (coveredPath c) (Z.of_nat (len (coveredPath c)) - hLen);
  let '(pathWithHistory, behind) := append history path in
  let c' := {| coveredPath := {| elems := elems (coveredPath c); spare := behind |};
               coverCount := coverCount c;
               covFuncs := covFuncs c;
               historyLen := historyLen c;
               rand := rand c;
               randomness := randomness c |} in
  let pathWithHistory := elems pathWithHistory in
  let allNewCovered := covFunc c pathWithHistory in
  let fullCoverCount := countNew c allNewCovered fullCoverCount in
  let est := {| MaxStep := MaxStep est;
                MaxIncrease := Z.of_nat (size fullCoverCount);
                FirstStep := FirstStep est;
                FirstIncrease := FirstIncrease est |} in
  let firstCoverCount : gmap string Z := ∅ in
  Ok (estimateLoop c pathWithHistory hLen
        (length pathWithHistory - Z.to_nat hLen) hLen est firstCoverCount,
      c').

Definition SetBestPathRandom (c : Coverer) (seed : Z) (randomness : Z) : Coverer :=
  {| coveredPath := coveredPath c;
     coverCount := coverCount c;
     covFuncs := covFuncs c;
     historyLen := historyLen c;
     rand := Some (rand_New seed);
     randomness := randomness |}.

(** [paths[i], paths[j] = paths[j], paths[i]] *)
Definition swap (paths : list Path) (i j : Z) : result (list Path) :=
  if ((i <? 0) || (j <? 0))%Z then Panic
  else
    match paths !! Z.to_nat i, paths !! Z.to_nat j with
    | Some pi, Some pj => Ok (<[Z.to_nat j := pi]> (<[Z.to_nat i := pj]> paths))
    | _, _ => Panic
    end.

Fixpoint swaps (paths : list Path) (calls : list (Z * Z)) : result (list Path) :=
  match calls with
  | [] => Ok paths
  | (i, j) :: calls' => paths ← swap paths i j; swaps paths calls'
  end.

(** [ShufflePaths] permutes [paths] in place and advances the
    generator. *)
Definition ShufflePaths (c : Coverer) (paths : list Path)
    : result (list Path * Coverer) :=
  match rand c with
  | None => Ok (paths, c)
  | Some r =>
      let '(calls, r') := rand_Shuffle r (Z.of_nat (length paths)) in
      paths ← swaps paths calls;
      Ok (paths,
          {| coveredPath := coveredPath c;
             coverCount := coverCount c;
             covFuncs := covFuncs c;
             historyLen := historyLen c;
             rand := Some r';
             randomness := randomness c |})
  end.

(** The [for _, path := range paths] loop of [BestPath]. [best = None]
    is the nil pointer. *)
Fixpoint BestPath_loop (c : Coverer) (paths : list Path)
    (bestPath : Path) (best : option CoverageIncreaseStats)
    : result (Path * option CoverageIncreaseStats * Coverer) :=
  match paths with
  | [] => Ok (bestPath, best, c)
  | path :: paths' =>
      '(est, c) ← EstimateCoverageIncrease c path;
      if (MaxIncrease est =? 0)%Z then BestPath_loop c paths' bestPath best
      else
        match best with
        | None =>
            if (randomness c >=? BestPathRandomAmongAnyPath)%Z
            then Ok (path, Some est, c)
            else BestPath_loop c paths' path (Some est)
        | Some b =>
            if (MaxIncrease est <? MaxIncrease b)%Z
            then BestPath_loop c paths' bestPath best
            else if (MaxIncrease est >? MaxIncrease b)%Z
            then BestPath_loop c paths' path (Some est)
            else if (randomness c =? BestPathRandomAmongMaxCoverageIncrease)%Z
            then BestPath_loop c paths' bestPath best
            else if (MaxStep est >? MaxStep b)%Z
            then BestPath_loop c paths' bestPath best
            else if (MaxStep est <? MaxStep b)%Z
            then BestPath_loop c paths' path (Some est)
            else if (randomness c =? BestPathRandomAmongFastestMaxCoverageIncrease)%Z
            then BestPath_loop c paths' bestPath best
            else if (FirstStep est >? FirstStep b)%Z
            then BestPath_loop c paths' bestPath best
            else if (FirstStep est <? FirstStep b)%Z
            then BestPath_loop c paths' path (Some est)
            else if (FirstIncrease est <? FirstIncrease b)%Z
            then BestPath_loop c paths' bestPath best
            else if (FirstIncrease est >? FirstIncrease b)%Z
            then BestPath_loop c paths' path (Some est)
            else BestPath_loop c paths' bestPath best
        end
  end.

(** [BestPath] over the candidates that [m.Paths(s, maxLen)] returned.
    The result [([], None)] is Go's [(nil, nil)]. *)
Definition BestPath_among (c : Coverer) (paths : list Path)
    : result (Path * option CoverageIncreaseStats * Coverer) :=
  '(paths, c) ← (if negb (randomness c =? BestPathRandomNone)%Z
                 then ShufflePaths c paths else Ok (paths, c));
  '(bestPath, best, c) ← BestPath_loop c paths [] None;
  if (length bestPath =? 0)%nat then Ok ([], None, c)
  else Ok (bestPath, best, c).

Definition BestPath (fuel : nat) (c : Coverer) (m : Model) (s : State) (maxLen : Z)
    : result (Path * option CoverageIncreaseStats * Coverer) :=
  paths ← Paths fuel m s maxLen;
  BestPath_among c paths.

(** ** action.go: the When/OnAction/Do syntax *)

Definition When (enabled : bool) (tss : list (list Transition)) : list Transition :=
  if negb enabled then []
  else fold_left (fun ts origTs => ts ++ origTs) tss [].

(** Inside [Do] each state change is handed what the one before it
    returned, nil included, so here a state change takes and returns a
    possibly nil state. The transition itself is only tried on states
    that are there. *)
Definition Do (a : Action) (stateChanges : list (option State -> option State))
    : list Transition :=
  let stateChange := fun s : State =>
    fold_left (fun s sc => sc s) stateChanges (Some s) in
  [NewTransition a stateChange].

(** ** Vocabulary of the properties *)


(** What one step contributes to the result of [Model.Paths], given the
    paths found from its end state. *)
Definition extend (step : Step) (childPaths : list Path) : list Path :=
  if (length childPaths =? 0)%nat then [[step]] else map (cons step) childPaths.

(** [Model.Paths] for a depth counted in [nat]. *)
Fixpoint pathsN (m : Model) (n : nat) (s : State) : list Path :=
  match n with
  | O => []
  | S n' =>
      concat (map (fun step => extend step (pathsN m n' (EndState step)))
                  (StepsFrom m s))
  end.

(** The steps a walker considers at [s]. *)
Definition nextStepsOf (w : Walker) (s : State) : list Step :=
  match stepFilter w with
  | Some f => f (StepsFrom (w_m w) s)
  | None => StepsFrom (w_m w) s
  end.

(** The paths a walker yields with [n] levels left, in order. *)
Fixpoint walk (w : Walker) (n : nat) (s : State) : list Path :=
  match n with
  | O => [[]]
  | S n' =>
      let nextSteps := nextStepsOf w s in
      if (length nextSteps =? 0)%nat then [[]]
      else concat (map (fun step => map (cons step) (walk w n' (EndState step)))
                       nextSteps)
  end.

(** Handing a list of slices to a consumer, one by one, until it
    declines. *)
Fixpoint feed {A : Type} (yield : A -> PathBuf -> A * bool) (a : A)
    (slices : list PathBuf) : A * bool :=
  match slices with
  | [] => (a, true)
  | p :: slices' =>
      let '(a', more) := yield a p in
      if more then feed yield a' slices' else (a', false)
  end.

(** What a call of [yieldPaths] at depth [length pre] has to do: hand
    the continuations of [pre] to the consumer, and leave the first
    cells of the buffer alone. *)
Definition yields {A : Type} (yield : A -> PathBuf -> A * bool)
    (call : result (bool * A * PathBuf)) (a : A) (path : PathBuf)
    (pre : Path) (conts : list Path) : Prop :=
  exists path',
    call = Ok (snd (feed yield a (map (fun p => Some <$> (pre ++ p)) conts)),
               fst (feed yield a (map (fun p => Some <$> (pre ++ p)) conts)),
               path') /\
    length path' = length path /\
    take (length pre) path' = Some <$> pre.

(** A step filter that only selects among the steps it is given. *)
Definition selects (f : StepFilter) : Prop :=
  forall steps step, In step (f steps) -> In step steps.

Definition selecting (w : Walker) : Prop :=
  forall f, stepFilter w = Some f -> selects f.

(** Adjacent steps connect: the end state of one renders as the start
    state of the next. *)
Definition chained (path : Path) : Prop :=
  forall (i : nat) (a b : Step),
    path !! i = Some a -> path !! S i = Some b ->
    StateString (EndState a) = StateString (StartState b).

(** What holds of every path [Model.Paths] returns from [s]. *)
Definition path_from (s : State) (p : Path) : Prop :=
  p <> [] /\ chained p /\ (forall b, head p = Some b -> StartState b = s).

(** The statistics [EstimateCoverageIncrease] computes, when it
    returns. *)
Definition estimated (c : Coverer) (path : Path) (est : CoverageIncreaseStats) : Prop :=
  exists c', EstimateCoverageIncrease c path = Ok (est, c').

(** What a caller in another package can see of a Coverer; the cells of
    the backing array beyond [len(coveredPath)] are not part of it. *)
Definition same_view (c c' : Coverer) : Prop :=
  elems (coveredPath c') = elems (coveredPath c) /\
  cap (coveredPath c') = cap (coveredPath c) /\
  coverCount c' = coverCount c /\
  covFuncs c' = covFuncs c /\
  historyLen c' = historyLen c /\
  rand c' = rand c /\
  randomness c' = randomness c.

(** The last [min(historyLen, len(coveredPath))] steps of the covered
    path. *)
Definition contextPrefix (c : Coverer) : Path :=
  let k := Nat.min (Z.to_nat (historyLen c)) (len (coveredPath c)) in
  drop (len (coveredPath c) - k) (elems (coveredPath c)).

(** The local [historyLen] of [EstimateCoverageIncrease]: the length of
    the context prefix. *)
Definition hLenOf (c : Coverer) : Z :=
  Z.of_nat (Nat.min (Z.to_nat (historyLen c)) (len (coveredPath c))).

(** The statistics of a candidate, as the two loops of
    [EstimateCoverageIncrease] compute them from the context prefix and
    the candidate. *)
Definition statsOf (c : Coverer) (path : Path) : CoverageIncreaseStats :=
  estimateLoop c (contextPrefix c ++ path) (hLenOf c) (length path) (hLenOf c)
    {| MaxStep := -1;
       MaxIncrease :=
         Z.of_nat (size (countNew c (covFunc c (contextPrefix c ++ path)) ∅));
       FirstStep := -1;
       FirstIncrease := 0 |}
    ∅.

(** An item is new when its count in the histogram is zero. *)
Definition isNew (c : Coverer) (s : string) : bool := (count (coverCount c) s =? 0)%Z.

(** The distinct new items among the coverage items of a path. *)
Definition newItems (c : Coverer) (path : Path) : gset string :=
  list_to_set (List.filter (isNew c) (covFunc c path)).


(** [a] ranks strictly above [b] in the order of [BestPath]: higher
    [MaxIncrease], then lower [MaxStep], then lower [FirstStep], then
    higher [FirstIncrease]. *)
Definition better (a b : CoverageIncreaseStats) : Prop :=
  (MaxIncrease b < MaxIncrease a \/
   (MaxIncrease a = MaxIncrease b /\
    (MaxStep a < MaxStep b \/
     (MaxStep a = MaxStep b /\
      (FirstStep a < FirstStep b \/
       (FirstStep a = FirstStep b /\ FirstIncrease b < FirstIncrease a))))))%Z.

#[global] Instance better_dec (a b : CoverageIncreaseStats) : Decision (better a b).
Proof. unfold better. apply _. Defined.

(** One round of the scan of [BestPath] without randomness: the
    candidate replaces the running best when it raises coverage and
    either is the first to do so or ranks strictly above the best. *)
Definition choose (c : Coverer) (acc : Path * option CoverageIncreaseStats)
    (path : Path) : Path * option CoverageIncreaseStats :=
  let est := statsOf c path in
  if (MaxIncrease est =? 0)%Z then acc
  else
    match snd acc with
    | None => (path, Some est)
    | Some b => if decide (better est b) then (path, Some est) else acc
    end.

(** What the fold of [choose] selects: nothing when no candidate raises
    coverage; otherwise the candidate at the least index [k] among
    those no other candidate ranks above. *)
Definition selected (c : Coverer) (paths : list Path)
    (r : Path * option CoverageIncreaseStats) : Prop :=
  match snd r with
  | None =>
      fst r = [] /\ forall q, In q paths -> MaxIncrease (statsOf c q) = 0%Z
  | Some est =>
      exists k : nat,
        paths !! k = Some (fst r) /\ est = statsOf c (fst r) /\
        MaxIncrease est <> 0%Z /\
        forall (j : nat) (q : Path),
          paths !! j = Some q -> MaxIncrease (statsOf c q) <> 0%Z ->
          ((j < k)%nat -> better est (statsOf c q)) /\
          ((k <= j)%nat -> ~ better (statsOf c q) est)
  end.

(** A coverage function never loses an item when the path grows at
    its end. *)
Definition monotone (f : Path -> list string) : Prop :=
  forall (p q : Path) (x : string), In x (f p) -> In x (f (p ++ q)).

(** What the exported methods maintain of a Coverer. *)
Definition cover_inv (c : Coverer) : Prop :=
  (0 <= historyLen c)%Z /\
  Forall monotone (covFuncs c) /\
  (forall x, x ∈ dom (coverCount c) -> In x (covFunc c (elems (coveredPath c)))).

(** Largest [int]. *)
Definition maxInt : Z := (2 ^ 63 - 1)%Z.

(** Coverers as the exported methods build them. *)
Inductive reachable : Coverer -> Prop :=
| reach_NewCoverer : reachable NewCoverer
| reach_CoverActions c : reachable c -> reachable (CoverActions c)
| reach_CoverActionFormats c : reachable c -> reachable (CoverActionFormats c)
| reach_CoverActionCombinations c n :
    reachable c -> (n < maxInt)%Z -> reachable (CoverActionCombinations c n)
| reach_CoverActionFormatCombinations c n :
    reachable c -> (n < maxInt)%Z -> reachable (CoverActionFormatCombinations c n)
| reach_CoverStates c : reachable c -> reachable (CoverStates c)
| reach_CoverStateActions c : reachable c -> reachable (CoverStateActions c)
| reach_CoverStateCombinations c n :
    reachable c -> (n < maxInt)%Z -> reachable (CoverStateCombinations c n)
| reach_UpdateCoverage c : reachable c -> reachable (UpdateCoverage c)
| reach_MarkCovered c steps : reachable c -> reachable (MarkCovered c steps)
| reach_SetBestPathRandom c seed randomness :
    reachable c -> reachable (SetBestPathRandom c seed randomness)
| reach_EstimateCoverageIncrease c path est c' :
    reachable c -> EstimateCoverageIncrease c path = Ok (est, c') -> reachable c'
| reach_BestPath c fuel m s maxLen r c' :
    reachable c -> BestPath fuel c m s maxLen = Ok (r, c') -> reachable c'.

(** The state a path leads to from [s]. *)
Definition endOf (s : State) (p : Path) : State :=
  fold_left (fun _ step => EndState step) p s.

(** [p] walks the model from [s]: each step is one the model offers
    where the step before it ended. *)
Inductive run (m : Model) : State -> Path -> Prop :=
| run_nil (s : State) : run m s []
| run_cons (s : State) (step : Step) (p : Path) :
    In step (StepsFrom m s) -> run m (EndState step) p -> run m s (step :: p).

(** The walks [Model.Paths] is after: not empty, as long as the depth
    allows, shorter only where the model offers no further step. *)
Definition maximal_run (m : Model) (n : nat) (s : State) (p : Path) : Prop :=
  p <> [] /\ run m s p /\
  (length p = n \/ ((length p < n)%nat /\ StepsFrom m (endOf s p) = [])).

(** How often an item occurs in a list of items. *)
Definition occurrences (x : string) (l : list string) : nat :=
  count_occ string_dec l x.

(** The last [k] steps of a path, all of it when it has fewer. *)
Definition lastn (k : nat) (p : Path) : Path := drop (length p - k) p.

(** The items of a path extended at its end are items of the path
    before, or items of its last [h] steps with the extension. *)
Definition windowed (h : nat) (f : Path -> list string) : Prop :=
  forall (cp path : Path) (x : string),
    In x (f (cp ++ path)) -> In x (f cp) \/ In x (f (lastn h cp ++ path)).

(** The items of the end of a chained path are items of the path. *)
Definition suffix_closed (f : Path -> list string) : Prop :=
  forall (p q : Path) (x : string),
    chained (p ++ q) -> In x (f q) -> In x (f (p ++ q)).

(** What the built-in coverage functions have in common, for a
    Coverer with the history length its registrations left. *)
Definition cover_local (c : Coverer) : Prop :=
  Forall (fun f => monotone f /\ suffix_closed f /\
                   exists k : nat, (Z.of_nat k <= historyLen c)%Z /\
                                   forall h : nat, (k <= h)%nat -> windowed h f)
         (covFuncs c).

(** The histogram is the one [UpdateCoverage] computes from the
    covered path: no step was marked and no coverage function added
    since the last update. *)
Definition up_to_date (c : Coverer) : Prop :=
  coverCount c = coverCount (UpdateCoverage c).

End Gofmbt.

Arguments Transition State : clear implicits.
Arguments Step State : clear implicits.
Arguments Model State : clear implicits.
Arguments Walker State : clear implicits.
Arguments Slice State : clear implicits.
Arguments Coverer State {rt}.

Abbreviation StateChange State := (State -> option State) (only parsing).
Abbreviation TransitionGen State := (State -> list (Transition State)) (only parsing).
Abbreviation Path State := (list (Step State)) (only parsing).
Abbreviation StepFilter State := (list (Step State) -> list (Step State)) (only parsing).
Abbreviation PathBuf State := (list (option (Step State))) (only parsing).
Abbreviation CoveredInPath State := (list (Step State) -> list string) (only parsing).

(** ** The player model of model_test.go *)

Record PlayerState : Type := mkPlayerState {
  playing : bool;
  song : Z
}.

(** [%v] of an [int]: its decimal digits. *)
Definition string_of_int (z : Z) : string :=
  DecimalString.NilZero.string_of_int (Z.to_int z).

(** [fmt.Sprintf("{playing:%v,song:%v}", ps.playing, ps.song)] *)
#[global] Instance PlayerState_String : Stringer PlayerState := fun ps =>
  ("{playing:" +:+ (if playing ps then "true" else "false")
   +:+ ",song:" +:+ string_of_int (song ps) +:+ "}")%string.

(** [NewAction(format)] without arguments, for a format that has no
    verb: [fmt.Sprintf] returns the format itself. *)
Definition NewAction (format : string) : Action :=
  {| name := format; format := format |}.

Definition play : StateChange PlayerState := fun s =>
  if playing s then None
  else Some {| playing := true; song := song s |}.

Definition pause : StateChange PlayerState := fun s =>
  if negb (playing s) then None
  else Some {| playing := false; song := song s |}.

Definition nextsong : StateChange PlayerState := fun s =>
  if (song s >=? 3)%Z then None
  else Some {| playing := playing s; song := int_add (song s) 1 |}.

Definition prevsong : StateChange PlayerState := fun s =>
  if (song s <=? 1)%Z then None
  else Some {| playing := playing s; song := int_sub (song s) 1 |}.

Definition newPlayerModelWithRawTransitions : Model PlayerState :=
  let model := NewModel in
  From model (fun current =>
    [ NewTransition (NewAction "play") play;
      NewTransition (NewAction "pause") pause;
      NewTransition (NewAction "nextsong") nextsong;
      NewTransition (NewAction "prevsong") prevsong ]).

(** [OnAction(format)] without arguments. *)
Definition OnAction (format : string) : Action := NewAction format.

(** [setState] of [newPlayerModelWithWhenOnAction]. *)
Definition setState (playing : bool) (song : Z)
    : option PlayerState -> option PlayerState :=
  fun _ => Some {| playing := playing; song := song |}.

Definition newPlayerModelWithWhenOnAction : Model PlayerState :=
  let model := NewModel in
  From model (fun start =>
    let s := start in
    When true
      [ When (playing s)
          [Do (OnAction "pause") [setState false (song s)]];
        When (negb (playing s))
          [Do (OnAction "play") [setState true (song s)]];
        When (song s <? 3)%Z
          [Do (OnAction "nextsong") [setState (playing s) (int_add (song s) 1)]];
        When (song s >? 1)%Z
          [Do (OnAction "prevsong") [setState (playing s) (int_sub (song s) 1)]] ]).

(** A runtime to run the model with: capacities double as in Go's
    [growslice] for small slices, [make] returns slices of up to 2^45
    pointers (the 2^48 bytes a heap can have on linux/amd64), and
    [Shuffle] is the Fisher-Yates walk of [math/rand], from [i = n-1]
    down to [1], fed by a linear congruential generator. *)
Definition lcg (r : Z) : Z := ((r * 6364136223846793005 + 1442695040888963407) `mod` 2 ^ 64)%Z.

Fixpoint fisherYates (i : nat) (r : Z) : list (Z * Z) * Z :=
  match i with
  | O => ([], r)
  | S i' =>
      let r := lcg r in
      let j := (r `mod` (Z.of_nat i + 1))%Z in
      let '(calls, r') := fisherYates i' r in
      ((Z.of_nat i, j) :: calls, r')
  end.

Definition exampleRuntime : GoRuntime :=
  {| growslice := fun oldCap needed => Nat.max needed (2 * oldCap);
     makeslice_max := 2 ^ 45;
     Rand := Z;
     rand_New := fun seed => seed;
     rand_Shuffle := fun r n => fisherYates (Z.to_nat n - 1) r |}.



(** The start state of the tests: paused, on song 1. *)
Definition state0 : PlayerState := {| playing := false; song := 1 |}.

(** The step [play] from the start state. *)
Definition stepPlay : Step PlayerState :=
  NewStep state0 (NewAction "play") {| playing := true; song := 1 |}.

(** The Coverer of [TestCoverPlayerActions]. *)
Definition covererActions : Coverer PlayerState (rt := exampleRuntime) :=
  CoverActionCombinations NewCoverer 1.

(** A Coverer that counts actions and has covered [play]. *)
Definition covererPlayed : Coverer PlayerState (rt := exampleRuntime) :=
  UpdateCoverage (MarkCovered (CoverActions NewCoverer) [stepPlay]).

(** A fresh Coverer that counts actions and states. *)
Definition covererStates : Coverer PlayerState (rt := exampleRuntime) :=
  CoverStates (CoverActions NewCoverer).

(** A Coverer that shuffles its candidates. *)
Definition covererShuffling : Coverer PlayerState (rt := exampleRuntime) :=
  SetBestPathRandom (CoverStateActions NewCoverer) 42 BestPathRandomAmongEquallyGood.

(** The step [pause] that follows [stepPlay]. *)
Definition stepPause : Step PlayerState :=
  NewStep {| playing := true; song := 1 |} (NewAction "pause") state0.

(** A Coverer that takes the first path that raises coverage. *)
Definition covererAnyPath : Coverer PlayerState (rt := exampleRuntime) :=
  SetBestPathRandom (CoverActions NewCoverer) 7 BestPathRandomAmongAnyPath.

(** A Coverer that counts actions and has covered all four of them. *)
Definition covererAllActions : Coverer PlayerState (rt := exampleRuntime) :=
  UpdateCoverage
    (MarkCovered (CoverActions NewCoverer)
       [stepPlay; stepPause;
        NewStep state0 (NewAction "nextsong") {| playing := false; song := 2 |};
        NewStep {| playing := false; song := 2 |} (NewAction "prevsong") state0]).

(** A Coverer that counts actions and pairs of successive actions, and
    has covered [play]. *)
Definition covererPairs : Coverer PlayerState (rt := exampleRuntime) :=
  UpdateCoverage (MarkCovered (CoverActionCombinations NewCoverer 2) [stepPlay]).

(** A Coverer with a step marked since the last update: it counts
    single actions with a history of one step, has covered and counted
    [play], and has [pause] marked but not counted. *)
Definition covererStale : Coverer PlayerState (rt := exampleRuntime) :=
  MarkCovered (UpdateCoverage (MarkCovered covererActions [stepPlay])) [stepPause].

(** A walker whose step filter returns a step of its own, whatever
    steps it is given. *)
Definition walkerForeign : Walker PlayerState :=
  SetStepFilter (NewWalker newPlayerModelWithRawTransitions) (fun _ => [stepPlay]).

(** * Properties *)

Section Properties.
Context {State : Type} {stringer : Stringer State} {rt : GoRuntime}.
Local Abbreviation Step := (Step State) (only parsing).
Local Abbreviation Path := (Path State) (only parsing).
Local Abbreviation Model := (Model State) (only parsing).
Local Abbreviation Walker := (Walker State) (only parsing).
Local Abbreviation PathBuf := (PathBuf State) (only parsing).
Local Abbreviation Coverer := (Coverer State) (only parsing).

(** Case analysis on every integer comparison of the goal. *)
Ltac split_comparisons :=
  repeat match goal with
         | |- context [(?x <? ?y)%Z] => destruct (Z.ltb_spec x y)
         | |- context [(?x >? ?y)%Z] => destruct (Z.gtb_spec x y)
         | |- context [(?x >=? ?y)%Z] => destruct (Z.geb_spec x y)
         | |- context [(?x =? ?y)%Z] => destruct (Z.eqb_spec x y)
         end.

(** ** Loops that append *)

Lemma fold_left_append {A B : Type} (f : B -> list A) (l : list B) (acc : list A) :
  fold_left (fun acc x => acc ++ f x) l acc = acc ++ concat (map f l).
Proof.
  revert acc. induction l as [|x l IH]; intros acc; simpl.
  - by rewrite app_nil_r.
  - by rewrite IH, <- app_assoc.
Qed.

Lemma fold_left_snoc {A B : Type} (f : B -> A) (l : list B) (acc : list A) :
  fold_left (fun acc x => acc ++ [f x]) l acc = acc ++ map f l.
Proof.
  revert acc. induction l as [|x l IH]; intros acc; simpl.
  - by rewrite app_nil_r.
  - by rewrite IH, <- app_assoc.
Qed.

Lemma NewPath_eq (steps : list Step) : NewPath steps = steps.
Proof. unfold NewPath. by rewrite (fold_left_snoc id), map_id. Qed.

Lemma int_wrap_small (z : Z) :
  (- 2 ^ 63 <= z < 2 ^ 63)%Z -> int_wrap z = z.
Proof. intros Hz. unfold int_wrap. rewrite Z.mod_small; lia. Qed.

(** ** model.go *)

Lemma TransitionsFrom_eq (m : Model) (s : State) :
  TransitionsFrom m s = concat (map (fun g => g s) (gen m)).
Proof. unfold TransitionsFrom. by rewrite fold_left_append. Qed.

Lemma StepsFrom_eq (m : Model) (s : State) :
  StepsFrom m s =
  omap (fun t => NewStep s (tr_action t) <$> tr_stateChange t s) (TransitionsFrom m s).
Proof.
  unfold StepsFrom.
  enough (Hgen : forall ts acc,
    fold_left (fun steps t =>
                 match tr_stateChange t s with
                 | Some endState => steps ++ [NewStep s (tr_action t) endState]
                 | None => steps
                 end) ts acc
    = acc ++ omap (fun t => NewStep s (tr_action t) <$> tr_stateChange t s) ts)
    by apply (Hgen _ []).
  induction ts as [|t ts IH]; intros acc; simpl.
  - by rewrite app_nil_r.
  - rewrite IH. destruct (tr_stateChange t s); simpl; [|done].
    by rewrite <- app_assoc.
Qed.

Lemma StepsFrom_start (m : Model) (s : State) (step : Step) :
  In step (StepsFrom m s) -> StartState step = s.
Proof.
  rewrite StepsFrom_eq. intros Hin. apply list_elem_of_In in Hin.
  apply list_elem_of_omap in Hin as (t & _ & Ht).
  destruct (tr_stateChange t s); simplify_eq/=. done.
Qed.

Lemma extend_eq (step : Step) (childPaths paths : list Path) :
  (if (length childPaths =? 0)%nat
   then paths ++ [NewPath [step]]
   else fold_left (fun paths childPath => paths ++ [NewPath [step] ++ childPath])
                  childPaths paths)
  = paths ++ extend step childPaths.
Proof.
  unfold extend. rewrite NewPath_eq.
  destruct (length childPaths =? 0)%nat; [done|].
  by rewrite (fold_left_snoc (fun childPath => [step] ++ childPath)).
Qed.

Lemma extend_nonempty (step : Step) (childPaths : list Path) :
  extend step childPaths <> [].
Proof.
  unfold extend. destruct childPaths; simpl; discriminate.
Qed.

Lemma Paths_loop_cons (rec : State -> result (list Path)) (step : Step)
    (steps : list Step) (paths : list Path) :
  Paths_loop rec (step :: steps) paths
  = match rec (EndState step) with
    | Ok childPaths => Paths_loop rec steps (paths ++ extend step childPaths)
    | Panic => Panic
    | OutOfFuel => OutOfFuel
    end.
Proof.
  cbn [Paths_loop]. unfold mbind, result_bind.
  destruct (rec (EndState step)) as [childPaths| |]; try done.
  rewrite <- extend_eq. by destruct (length childPaths =? 0)%nat.
Qed.

Lemma Paths_loop_Ok (rec : State -> result (list Path)) (f : State -> list Path)
    (steps : list Step) (paths : list Path) :
  (forall step, In step steps -> rec (EndState step) = Ok (f (EndState step))) ->
  Paths_loop rec steps paths
  = Ok (paths ++ concat (map (fun step => extend step (f (EndState step))) steps)).
Proof.
  revert paths. induction steps as [|step steps IH]; intros paths Hrec.
  - simpl. by rewrite app_nil_r.
  - rewrite Paths_loop_cons, (Hrec step) by (by left).
    rewrite IH by (intros; apply Hrec; by right).
    simpl. by rewrite <- app_assoc.
Qed.

Lemma Paths_loop_Forall (P : Path -> Prop) (rec : State -> result (list Path))
    (steps : list Step) (paths r : list Path) :
  Paths_loop rec steps paths = Ok r ->
  Forall P paths ->
  (forall step childPaths, In step steps -> rec (EndState step) = Ok childPaths ->
     Forall P (extend step childPaths)) ->
  Forall P r.
Proof.
  revert paths. induction steps as [|step steps IH]; intros paths.
  - simpl. intros [= <-]. done.
  - rewrite Paths_loop_cons.
    destruct (rec (EndState step)) as [childPaths| |] eqn:Hrec; try done.
    intros Hloop Hpaths Hext.
    apply (IH _ Hloop).
    + apply Forall_app. split; [done|]. apply (Hext step); [by left|done].
    + intros step' cps Hin. apply Hext. by right.
Qed.

(** For a depth that is a non-negative [int], [Model.Paths] returns as
    soon as the recursion budget exceeds the depth. *)
Lemma Paths_pathsN (fuel : nat) (m : Model) (s : State) (maxLen : Z) :
  (0 <= maxLen <= maxInt)%Z -> (Z.to_nat maxLen < fuel)%nat ->
  Paths fuel m s maxLen = Ok (pathsN m (Z.to_nat maxLen) s).
Proof.
  unfold maxInt. revert s maxLen.
  induction fuel as [|fuel IH]; intros s maxLen Hlen Hfuel; [lia|].
  simpl. destruct (Z.eqb_spec maxLen 0) as [->|Hne]; [done|].
  assert (Hsub : int_sub maxLen 1 = (maxLen - 1)%Z)
    by (apply int_wrap_small; lia).
  assert (Hn : Z.to_nat maxLen = S (Z.to_nat (maxLen - 1))) by lia.
  rewrite Hsub, Hn.
  rewrite (Paths_loop_Ok _ (pathsN m (Z.to_nat (maxLen - 1))))
    by (intros; apply IH; lia).
  cbn. by destruct (length _ =? 0)%nat eqn:E;
    [apply Nat.eqb_eq, nil_length_inv in E; rewrite E|].
Qed.

(** ** Chained paths *)

Lemma chained_nil : chained ([] : Path).
Proof. intros i a b Ha. by destruct i. Qed.

Lemma chained_cons (a : Step) (p : Path) :
  chained p ->
  (forall b, head p = Some b -> EndState a = StartState b) ->
  chained (a :: p).
Proof.
  intros Hp Hhead [|i] x y Hx Hy; simpl in *.
  - injection Hx as <-. destruct p as [|b p]; [done|].
    simpl in Hy. injection Hy as <-. by rewrite (Hhead b).
  - by apply (Hp i).
Qed.

Lemma extend_path_from (m : Model) (s : State) (step : Step) (childPaths : list Path) :
  In step (StepsFrom m s) ->
  Forall (path_from (EndState step)) childPaths ->
  Forall (path_from s) (extend step childPaths).
Proof.
  intros Hstep Hchild. apply StepsFrom_start in Hstep.
  unfold extend. destruct (length childPaths =? 0)%nat.
  - apply Forall_singleton. split; [done|]. split.
    + apply chained_cons; [apply chained_nil|done].
    + by intros b [= <-].
  - apply Forall_fmap. eapply Forall_impl; [exact Hchild|].
    intros p (Hne & Hch & Hhd). split; [done|]. split.
    + apply chained_cons; [done|]. intros b Hb. by rewrite (Hhd b).
    + by intros b [= <-].
Qed.

Lemma Paths_path_from (fuel : nat) (m : Model) (s : State) (maxLen : Z)
    (paths : list Path) :
  Paths fuel m s maxLen = Ok paths -> Forall (path_from s) paths.
Proof.
  revert s maxLen paths.
  induction fuel as [|fuel IH]; intros s maxLen paths; [done|].
  simpl. destruct (maxLen =? 0)%Z; [by intros [= <-]|].
  destruct (Paths_loop _ _ _) as [r| |] eqn:Hloop; try done.
  cbn. intros Hret.
  assert (Hr : Forall (path_from s) r).
  { apply (Paths_loop_Forall _ _ _ _ _ Hloop); [done|].
    intros step childPaths Hin Hrec.
    apply (extend_path_from m); [done|]. by apply IH in Hrec. }
  destruct (length r =? 0)%nat; by injection Hret as <-.
Qed.

Lemma Paths_nonempty (fuel : nat) (m : Model) (s : State) (maxLen : Z)
    (paths : list Path) (p : Path) :
  Paths fuel m s maxLen = Ok paths -> In p paths -> p <> [].
Proof.
  intros Hp Hin. apply Paths_path_from in Hp.
  rewrite Forall_forall in Hp. apply list_elem_of_In in Hin.
  by destruct (Hp p Hin).
Qed.

(** ** walk.go *)

Section Walk.
Context {A : Type} (yield : A -> PathBuf -> A * bool) (w : Walker).

Lemma feed_app (a : A) (l1 l2 : list PathBuf) :
  feed yield a (l1 ++ l2)
  = (if snd (feed yield a l1) then feed yield (fst (feed yield a l1)) l2
     else (fst (feed yield a l1), false)).
Proof.
  revert a. induction l1 as [|p l1 IH]; intros a; simpl; [done|].
  destruct (yield a p) as [a' more]. destruct more; [apply IH|done].
Qed.

Lemma yieldSteps_yields (rec : A -> PathBuf -> State -> result (bool * A * PathBuf))
    (N n' : nat) (pre : Path) :
  (length pre < N)%nat ->
  (forall step a path,
     length path = N -> take (S (length pre)) path = Some <$> (pre ++ [step]) ->
     yields yield (rec a path (EndState step)) a path (pre ++ [step])
            (walk w n' (EndState step))) ->
  forall nextSteps a path,
    length path = N -> take (length pre) path = Some <$> pre ->
    yields yield (yieldSteps rec (Z.of_nat (length pre)) nextSteps a path) a path pre
           (concat (map (fun step => map (cons step) (walk w n' (EndState step)))
                        nextSteps)).
Proof.
  intros Hpre Hrec. unfold yields in *.
  induction nextSteps as [|step nextSteps IH]; intros a path Hlen Htake.
  - exists path. simpl. done.
  - cbn [yieldSteps].
    destruct (Z.ltb_spec (Z.of_nat (length pre)) 0) as [?|_]; [lia|].
    destruct (Z.leb_spec (Z.of_nat (length path)) (Z.of_nat (length pre)))
      as [?|_]; [lia|].
    cbn [orb]. rewrite Nat2Z.id.
    set (path1 := <[length pre := Some step]> path).
    assert (Hlen1 : length path1 = N) by (unfold path1; by rewrite length_insert).
    assert (Htake1 : take (S (length pre)) path1 = Some <$> (pre ++ [step])).
    { rewrite (take_S_r _ _ (Some step)).
      - unfold path1. rewrite take_insert_ge by lia.
        by rewrite Htake, fmap_app.
      - unfold path1. apply list_lookup_insert_eq. lia. }
    destruct (Hrec step a path1 Hlen1 Htake1) as (path2 & Hcall & Hlen2 & Htake2).
    rewrite Hcall. cbn [mbind result_bind].
    set (fd := feed yield a _) in *.
    assert (Hpre2 : take (length pre) path2 = Some <$> pre).
    { rewrite length_app in Htake2. simpl in Htake2.
      replace (length pre) with (Nat.min (length pre) (length pre + 1)) at 1 by lia.
      rewrite <- take_take, Htake2, fmap_app, take_app_length'; [done|].
      by rewrite length_fmap. }
    cbn [map concat]. rewrite map_app, feed_app, map_map.
    assert (Hfd : feed yield a
               (map (fun p => Some <$> (pre ++ step :: p)) (walk w n' (EndState step)))
             = fd).
    { unfold fd. f_equal. apply map_ext. intros p. by rewrite <- app_assoc. }
    rewrite Hfd. destruct (snd fd) eqn:Hmore; simpl.
    + destruct (IH (fst fd) path2) as (path3 & Hcall3 & Hlen3 & Htake3);
        [lia|done|].
      exists path3. rewrite Hcall3. split; [done|]. split; [lia|done].
    + exists path2. split; [done|]. split; [lia|done].
Qed.

Lemma yieldPaths_yields (fuel : nat) (a : A) (path : PathBuf) (pre : Path)
    (s : State) (maxLen : Z) :
  (0 <= maxLen <= maxInt)%Z ->
  (length pre <= Z.to_nat maxLen)%nat ->
  length path = Z.to_nat maxLen ->
  take (length pre) path = Some <$> pre ->
  (Z.to_nat maxLen - length pre < fuel)%nat ->
  yields yield (yieldPaths yield fuel w a path (Z.of_nat (length pre)) s maxLen)
         a path pre (walk w (Z.to_nat maxLen - length pre) s).
Proof.
  unfold maxInt. revert a path pre s.
  induction fuel as [|fuel IH]; intros a path pre s Hmax Hpre Hlen Htake Hfuel;
    [lia|].
  cbn [yieldPaths].
  destruct (Z.eqb_spec (Z.of_nat (length pre)) maxLen) as [Heq|Hne].
  - replace (Z.to_nat maxLen - length pre)%nat with 0%nat by lia.
    exists path. simpl. rewrite app_nil_r.
    assert (Hpath : path = Some <$> pre).
    { rewrite <- Htake, take_ge; [done|lia]. }
    rewrite <- Hpath.
    destruct (yield a path) as [a' []]; (split; [done|]; split; [done|]);
      apply take_ge; lia.
  - destruct (Z.to_nat maxLen - length pre)%nat as [|n'] eqn:Hn; [lia|].
    cbn [walk]. fold (nextStepsOf w s).
    destruct (length (nextStepsOf w s) =? 0)%nat.
    + destruct (Z.ltb_spec (Z.of_nat (length pre)) 0) as [?|_]; [lia|].
      destruct (Z.ltb_spec (Z.of_nat (length path)) (Z.of_nat (length pre)))
        as [?|_]; [lia|].
      cbn [orb]. rewrite Nat2Z.id, Htake.
      exists path. simpl. rewrite app_nil_r.
      by destruct (yield a (Some <$> pre)) as [a' []].
    + apply (yieldSteps_yields _ (Z.to_nat maxLen)); [lia| |done|done].
      intros step a1 path1 Hlen1 Htake1.
      assert (Hidx : int_add (Z.of_nat (length pre)) 1
                     = Z.of_nat (length (pre ++ [step]))).
      { rewrite length_app. simpl. unfold int_add.
        rewrite int_wrap_small; lia. }
      rewrite Hidx.
      replace n' with (Z.to_nat maxLen - length (pre ++ [step]))%nat
        by (rewrite length_app; simpl; lia).
      apply IH; rewrite ?length_app; simpl; try lia; try done.
      by rewrite length_app, Nat.add_1_r in *.
Qed.

Lemma IterPaths_feed (fuel : nat) (s : State) (maxLen : Z) (a : A) :
  (0 <= maxLen <= maxInt)%Z -> (maxLen <= makeslice_max)%Z ->
  (Z.to_nat maxLen < fuel)%nat ->
  IterPaths yield fuel w s maxLen a
  = Ok (fst (feed yield a (map (fmap Some) (walk w (Z.to_nat maxLen) s)))).
Proof.
  intros Hmax Hmake Hfuel. unfold IterPaths.
  destruct (Z.ltb_spec maxLen 0) as [?|_]; [lia|].
  destruct (Z.ltb_spec makeslice_max maxLen) as [?|_]; [lia|]. cbn [orb].
  destruct (yieldPaths_yields fuel a (replicate (Z.to_nat maxLen) None) [] s maxLen)
    as (path' & Hcall & _); simpl; rewrite ?length_replicate; try done; try lia.
  simpl in Hcall. change (Z.of_nat 0) with 0%Z in Hcall.
  rewrite Hcall, Nat.sub_0_r. done.
Qed.

(** Beyond what [make] allocates there is no enumeration at all. *)
Lemma IterPaths_make_panics (fuel : nat) (s : State) (maxLen : Z) (a : A) :
  (makeslice_max < maxLen)%Z -> IterPaths yield fuel w s maxLen a = Panic.
Proof.
  intros Hmake. unfold IterPaths.
  destruct (Z.ltb_spec makeslice_max maxLen) as [_|?]; [|lia].
  by rewrite orb_true_r.
Qed.

Lemma feed_invariant (P : A -> Prop) (Q : PathBuf -> Prop)
    (a : A) (slices : list PathBuf) :
  (forall a p, P a -> Q p -> P (fst (yield a p))) ->
  P a -> Forall Q slices -> P (fst (feed yield a slices)).
Proof.
  intros Hstep. revert a.
  induction slices as [|p slices IH]; intros a Ha Hall; simpl; [done|].
  apply Forall_cons in Hall as [Hp Hall].
  specialize (Hstep a p Ha Hp).
  destruct (yield a p) as [a' more]. simpl in Hstep.
  destruct more; [by apply IH|done].
Qed.

End Walk.

Lemma feed_collect (paths slices : list PathBuf) :
  feed collect paths slices = (paths ++ slices, true).
Proof.
  revert paths. induction slices as [|p slices IH]; intros paths; simpl.
  - by rewrite app_nil_r.
  - unfold collect at 1. by rewrite IH, <- app_assoc.
Qed.

Lemma Walker_Paths_walk (fuel : nat) (w : Walker) (s : State) (maxLen : Z) :
  (0 <= maxLen <= maxInt)%Z -> (maxLen <= makeslice_max)%Z ->
  (Z.to_nat maxLen < fuel)%nat ->
  Walker_Paths fuel w s maxLen = Ok (map (fmap Some) (walk w (Z.to_nat maxLen) s)).
Proof.
  intros Hmax Hmake Hfuel. unfold Walker_Paths.
  rewrite IterPaths_feed by done. by rewrite feed_collect.
Qed.

(** Without a filter the walker finds the paths of [Model.Paths], and
    the empty path where [Model.Paths] finds none. *)
Lemma walk_pathsN (m : Model) (n : nat) (s : State) :
  walk (NewWalker m) n s
  = (if (length (pathsN m n s) =? 0)%nat then [[]] else pathsN m n s).
Proof.
  revert s. induction n as [|n IH]; intros s; [done|].
  cbn [walk pathsN]. unfold nextStepsOf. cbn [NewWalker stepFilter w_m].
  destruct (StepsFrom m s) as [|step steps] eqn:Hsteps; [done|].
  assert (Heq : forall step',
    map (cons step') (walk (NewWalker m) n (EndState step'))
    = extend step' (pathsN m n (EndState step'))).
  { intros step'. rewrite IH. unfold extend.
    by destruct (length (pathsN m n (EndState step')) =? 0)%nat. }
  rewrite (map_ext _ _ Heq).
  cbn [length Nat.eqb map concat].
  destruct (extend step (pathsN m n (EndState step))) as [|p ps] eqn:Hext.
  - by apply extend_nonempty in Hext.
  - done.
Qed.

Lemma pathsN_nil (m : Model) (n : nat) (s : State) :
  pathsN m n s = [] <-> n = 0%nat \/ StepsFrom m s = [].
Proof.
  destruct n as [|n]; simpl; [naive_solver|].
  destruct (StepsFrom m s) as [|step steps]; simpl; [naive_solver|].
  split; [|naive_solver]. intros Hnil.
  apply app_eq_nil in Hnil as [Hext _]. by apply extend_nonempty in Hext.
Qed.

Lemma walk_path_from (w : Walker) (n : nat) (s : State) :
  selecting w ->
  Forall (fun p => chained p /\ forall b, head p = Some b -> StartState b = s)
         (walk w n s).
Proof.
  intros Hsel. revert s. induction n as [|n IH]; intros s; cbn [walk].
  - apply Forall_singleton. split; [apply chained_nil|done].
  - destruct (length (nextStepsOf w s) =? 0)%nat.
    + apply Forall_singleton. split; [apply chained_nil|done].
    + apply Forall_concat, Forall_fmap, Forall_forall. intros step Hin.
      assert (Hstart : StartState step = s).
      { apply list_elem_of_In in Hin. unfold nextStepsOf in Hin.
        apply (StepsFrom_start (w_m w)).
        destruct (stepFilter w) as [f|] eqn:Hf; [|done].
        by apply (Hsel f Hf). }
      simpl. apply Forall_fmap. eapply Forall_impl; [apply IH|].
      intros p [Hch Hhd]. split.
      * apply chained_cons; [done|]. intros b Hb. by rewrite (Hhd b).
      * by intros b [= <-].
Qed.

(** ** cover.go: estimation *)

Lemma append_elems (sl : Slice State) (path : Path) :
  elems (fst (append sl path)) = elems sl ++ path.
Proof. unfold append. by destruct (_ <=? _)%nat. Qed.

Lemma append_behind_length (sl : Slice State) (path : Path) :
  length (snd (append sl path)) = length (spare sl).
Proof.
  unfold append. destruct (Nat.leb_spec (length path) (length (spare sl))); [|done].
  cbn [snd]. rewrite length_app, length_fmap, length_drop. lia.
Qed.

Lemma contextPrefix_length (c : Coverer) :
  Z.of_nat (length (contextPrefix c)) = hLenOf c.
Proof. unfold contextPrefix, hLenOf, len. rewrite length_drop. lia. Qed.

Lemma EstimateCoverageIncrease_Ok (c : Coverer) (path : Path) :
  (0 <= historyLen c)%Z ->
  exists c', EstimateCoverageIncrease c path = Ok (statsOf c path, c')
             /\ same_view c c'.
Proof.
  intros Hh. unfold EstimateCoverageIncrease.
  set (n := len (coveredPath c)).
  set (h := if (historyLen c >? Z.of_nat n)%Z then Z.of_nat n else historyLen c).
  assert (Hh' : h = hLenOf c).
  { unfold h, hLenOf. fold n. destruct (Z.gtb_spec (historyLen c) (Z.of_nat n)); lia. }
  unfold slice_from. fold n.
  destruct (Z.ltb_spec (Z.of_nat n - h) 0) as [?|_];
    [unfold hLenOf in Hh'; fold n in Hh'; lia|].
  destruct (Z.ltb_spec (Z.of_nat n) (Z.of_nat n - h)) as [?|_];
    [unfold hLenOf in Hh'; fold n in Hh'; lia|].
  cbn [orb mbind result_bind].
  assert (Hprefix : drop (Z.to_nat (Z.of_nat n - h)) (elems (coveredPath c))
                    = contextPrefix c).
  { unfold contextPrefix. fold n. f_equal. rewrite Hh'. unfold hLenOf. fold n. lia. }
  rewrite Hprefix.
  set (history := {| elems := contextPrefix c; spare := spare (coveredPath c) |}).
  pose proof (append_elems history path) as Helems.
  pose proof (append_behind_length history path) as Hbehind.
  destruct (append history path) as [pwh behind]. cbn [fst snd] in *.
  cbn [elems] in Helems. rewrite Helems, Hh'.
  eexists. split.
  - unfold statsOf. subst history. cbn [elems].
    pose proof (contextPrefix_length c) as Hcp.
    replace (length (contextPrefix c ++ path) - Z.to_nat (hLenOf c))%nat
      with (length path) by (rewrite length_app; lia).
    reflexivity.
  - unfold same_view, cap. cbn. rewrite Hbehind. done.
Qed.

Lemma EstimateCoverageIncrease_inv (c : Coverer) (path : Path)
    (est : CoverageIncreaseStats) (c' : Coverer) :
  EstimateCoverageIncrease c path = Ok (est, c') ->
  (0 <= historyLen c)%Z /\ est = statsOf c path /\ same_view c c'.
Proof.
  intros Hest. destruct (Z.le_gt_cases 0 (historyLen c)) as [Hh|Hh].
  - destruct (EstimateCoverageIncrease_Ok c path Hh) as (c1 & Hok & Hview).
    rewrite Hok in Hest. by injection Hest as <- <-.
  - exfalso. unfold EstimateCoverageIncrease, slice_from in Hest.
    destruct (Z.gtb_spec (historyLen c) (Z.of_nat (len (coveredPath c)))); [lia|].
    destruct (Z.ltb_spec (Z.of_nat (len (coveredPath c)))
                (Z.of_nat (len (coveredPath c)) - historyLen c)); [|lia].
    by rewrite orb_true_r in Hest.
Qed.

Lemma incr_dom (m : gmap string Z) (s : string) : dom (incr m s) = {[s]} ∪ dom m.
Proof. unfold incr. by rewrite dom_insert_L. Qed.

Lemma countNew_dom (c : Coverer) (covered : list string) (m : gmap string Z) :
  dom (countNew c covered m) = dom m ∪ list_to_set (List.filter (isNew c) covered).
Proof.
  unfold countNew. revert m.
  induction covered as [|s covered IH]; intros m; simpl; [set_solver|].
  rewrite IH. unfold isNew at 2.
  destruct (count (coverCount c) s =? 0)%Z; simpl; [|done].
  rewrite incr_dom. set_solver.
Qed.

Lemma countNew_size (c : Coverer) (path : Path) :
  size (countNew c (covFunc c path) ∅) = size (newItems c path).
Proof.
  rewrite <- size_dom, countNew_dom, dom_empty_L, (left_id_L ∅ (∪)). done.
Qed.

Lemma estimateLoop_MaxIncrease (c : Coverer) (pwh : Path) (h : Z) (n : nat) (i : Z)
    (est : CoverageIncreaseStats) (first : gmap string Z) :
  MaxIncrease (estimateLoop c pwh h n i est first) = MaxIncrease est.
Proof.
  revert i est first. induction n as [|n IH]; intros i est first; [done|].
  cbn [estimateLoop].
  repeat match goal with
         | |- context [if ?b then _ else _] => destruct b
         end; cbn [MaxIncrease]; rewrite ?IH; done.
Qed.

Lemma statsOf_MaxIncrease (c : Coverer) (path : Path) :
  MaxIncrease (statsOf c path)
  = Z.of_nat (size (newItems c (contextPrefix c ++ path))).
Proof.
  unfold statsOf. rewrite estimateLoop_MaxIncrease. cbn [MaxIncrease].
  by rewrite countNew_size.
Qed.

Lemma covFunc_ext (c c' : Coverer) (path : Path) :
  covFuncs c' = covFuncs c -> covFunc c' path = covFunc c path.
Proof. unfold covFunc. by intros ->. Qed.

Lemma countNew_ext (c c' : Coverer) (covered : list string) (m : gmap string Z) :
  coverCount c' = coverCount c -> countNew c' covered m = countNew c covered m.
Proof. unfold countNew. by intros ->. Qed.

Lemma estimateLoop_ext (c c' : Coverer) (pwh : Path) (h : Z) (n : nat) (i : Z)
    (est : CoverageIncreaseStats) (first : gmap string Z) :
  coverCount c' = coverCount c -> covFuncs c' = covFuncs c ->
  estimateLoop c' pwh h n i est first = estimateLoop c pwh h n i est first.
Proof.
  intros Hcount Hfuncs. revert i est first.
  induction n as [|n IH]; intros i est first; [done|].
  cbn [estimateLoop].
  rewrite (covFunc_ext c c') by done. rewrite (countNew_ext c c') by done.
  by rewrite !IH.
Qed.

Lemma statsOf_same_view (c c' : Coverer) (path : Path) :
  same_view c c' -> statsOf c' path = statsOf c path.
Proof.
  intros (Helems & _ & Hcount & Hfuncs & Hh & _).
  assert (Hprefix : contextPrefix c' = contextPrefix c).
  { unfold contextPrefix, len. by rewrite Helems, Hh. }
  assert (HhLen : hLenOf c' = hLenOf c).
  { unfold hLenOf, len. by rewrite Helems, Hh. }
  unfold statsOf. rewrite Hprefix, HhLen.
  rewrite (covFunc_ext c c'), (countNew_ext c c') by done.
  by apply estimateLoop_ext.
Qed.

Lemma same_view_refl (c : Coverer) : same_view c c.
Proof. by unfold same_view. Qed.

Lemma same_view_trans (c1 c2 c3 : Coverer) :
  same_view c1 c2 -> same_view c2 c3 -> same_view c1 c3.
Proof. unfold same_view. intros H12 H23. destruct_and!. repeat split; congruence. Qed.

Lemma same_view_historyLen (c c' : Coverer) :
  same_view c c' -> historyLen c' = historyLen c.
Proof. unfold same_view. naive_solver. Qed.

(** ** cover.go: the scan of BestPath *)

(** Whatever the randomness, the scan returns, leaves the Coverer as it
    looks from outside, and its result is either what it started from
    or a candidate that raises coverage, with its statistics. *)
Lemma BestPath_loop_sound (c : Coverer) (paths : list Path) :
  (0 <= historyLen c)%Z ->
  forall (c1 : Coverer) (bestPath : Path) (best : option CoverageIncreaseStats),
    same_view c c1 ->
    exists bestPath' best' c2,
      BestPath_loop c1 paths bestPath best = Ok (bestPath', best', c2) /\
      same_view c c2 /\
      ((bestPath', best') = (bestPath, best) \/
       (In bestPath' paths /\ best' = Some (statsOf c bestPath') /\
        MaxIncrease (statsOf c bestPath') <> 0%Z)) /\
      (Forall (fun p => MaxIncrease (statsOf c p) = 0%Z) paths ->
       (bestPath', best') = (bestPath, best)).
Proof.
  intros Hh. induction paths as [|path paths IH]; intros c1 bestPath best Hview.
  - exists bestPath, best, c1. simpl. auto.
  - cbn [BestPath_loop].
    assert (Hh1 : (0 <= historyLen c1)%Z)
      by (by rewrite (same_view_historyLen c c1)).
    destruct (EstimateCoverageIncrease_Ok c1 path Hh1) as (c1' & Hest & Hview1).
    rewrite Hest. cbn [mbind result_bind].
    rewrite (statsOf_same_view c c1) by done.
    pose proof (same_view_trans _ _ _ Hview Hview1) as Hview'.
    set (est := statsOf c path).
    assert (Hkeep : exists bestPath' best' c2,
      BestPath_loop c1' paths bestPath best = Ok (bestPath', best', c2) /\
      same_view c c2 /\
      ((bestPath', best') = (bestPath, best) \/
       (In bestPath' (path :: paths) /\ best' = Some (statsOf c bestPath') /\
        MaxIncrease (statsOf c bestPath') <> 0%Z)) /\
      (Forall (fun p => MaxIncrease (statsOf c p) = 0%Z) (path :: paths) ->
       (bestPath', best') = (bestPath, best))).
    { destruct (IH c1' bestPath best Hview') as (bp & b & c2 & Hloop & Hv & Hres & Hzero).
      exists bp, b, c2. split; [done|]. split; [done|]. split.
      - destruct Hres as [?|(? & ? & ?)]; [by left|right].
        split; [by right|done].
      - intros Hall. apply Forall_cons in Hall as [_ Hall]. by apply Hzero. }
    assert (Htake : MaxIncrease est <> 0%Z -> exists bestPath' best' c2,
      BestPath_loop c1' paths path (Some est) = Ok (bestPath', best', c2) /\
      same_view c c2 /\
      ((bestPath', best') = (bestPath, best) \/
       (In bestPath' (path :: paths) /\ best' = Some (statsOf c bestPath') /\
        MaxIncrease (statsOf c bestPath') <> 0%Z)) /\
      (Forall (fun p => MaxIncrease (statsOf c p) = 0%Z) (path :: paths) ->
       (bestPath', best') = (bestPath, best))).
    { intros Hne.
      destruct (IH c1' path (Some est) Hview') as (bp & b & c2 & Hloop & Hv & Hres & _).
      exists bp, b, c2. split; [done|]. split; [done|]. split.
      - right. destruct Hres as [[= -> ->]|(? & ? & ?)].
        + split; [by left|done].
        + split; [by right|done].
      - intros Hall. apply Forall_cons in Hall as [Hz _]. done. }
    destruct (Z.eqb_spec (MaxIncrease est) 0) as [Hz|Hnz]; [exact Hkeep|].
    destruct best as [b|].
    + split_comparisons; first [exact Hkeep | exact (Htake Hnz)].
    + destruct (Z.geb_spec (randomness c1') BestPathRandomAmongAnyPath);
        [|exact (Htake Hnz)].
      exists path, (Some est), c1'. split; [done|]. split; [done|]. split.
      * right. split; [by left|done].
      * intros Hall. apply Forall_cons in Hall as [Hz _]. done.
Qed.

(** Without randomness the scan is a left fold of [choose]. *)
Lemma BestPath_loop_none (c : Coverer) (paths : list Path) :
  randomness c = BestPathRandomNone -> (0 <= historyLen c)%Z ->
  forall (c1 : Coverer) (bestPath : Path) (best : option CoverageIncreaseStats),
    same_view c c1 ->
    exists c2,
      BestPath_loop c1 paths bestPath best
      = Ok (fst (fold_left (choose c) paths (bestPath, best)),
            snd (fold_left (choose c) paths (bestPath, best)), c2) /\
      same_view c c2.
Proof.
  intros Hnone Hh.
  induction paths as [|path paths IH]; intros c1 bestPath best Hview.
  - exists c1. simpl. auto.
  - cbn [BestPath_loop fold_left].
    assert (Hh1 : (0 <= historyLen c1)%Z)
      by (by rewrite (same_view_historyLen c c1)).
    destruct (EstimateCoverageIncrease_Ok c1 path Hh1) as (c1' & Hest & Hview1).
    rewrite Hest. cbn [mbind result_bind].
    rewrite (statsOf_same_view c c1) by done.
    pose proof (same_view_trans _ _ _ Hview Hview1) as Hview'.
    assert (Hr : randomness c1' = 0%Z).
    { destruct Hview' as (_ & _ & _ & _ & _ & _ & ->). exact Hnone. }
    rewrite Hr. unfold choose at 2 4. cbn [snd].
    unfold BestPathRandomAmongAnyPath, BestPathRandomAmongMaxCoverageIncrease,
      BestPathRandomAmongFastestMaxCoverageIncrease.
    set (est := statsOf c path).
    destruct (Z.eqb_spec (MaxIncrease est) 0) as [Hz|Hnz]; [by apply IH|].
    destruct best as [b|]; [|by apply IH].
    destruct (decide (better est b)) as [Hb|Hb]; unfold better in Hb;
      split_comparisons; try (by apply IH); exfalso; lia.
Qed.

Lemma choose_fold_selected (c : Coverer) (paths : list Path) :
  selected c paths (fold_left (choose c) paths ([], None)).
Proof.
  induction paths as [|x l IH] using rev_ind.
  - simpl. split; [done|]. by intros q [].
  - rewrite fold_left_app. cbn [fold_left].
    destruct (fold_left (choose c) l ([], None)) as [bp best].
    unfold selected in *. cbn [fst snd] in *.
    unfold choose. cbn [snd].
    destruct (Z.eqb_spec (MaxIncrease (statsOf c x)) 0) as [Hz|Hnz].
    + (* the candidate does not raise coverage *)
      cbn [fst snd]. destruct best as [b|].
      * destruct IH as (k & Hk & Hb & Hne & Hopt).
        exists k. split; [by apply lookup_app_l_Some|]. do 2 (split; [done|]).
        intros j q Hj Hq. apply lookup_app_Some in Hj as [Hj|[Hlen Hj]].
        -- by apply Hopt.
        -- apply list_lookup_singleton_Some in Hj as [_ <-]. done.
      * destruct IH as [Hbp Hall]. split; [done|].
        intros q Hq. apply in_app_or in Hq as [Hq|[<-|[]]]; auto.
    + destruct best as [b|].
      * destruct IH as (k & Hk & Hb & Hne & Hopt).
        pose proof (lookup_lt_Some _ _ _ Hk) as Hklt.
        destruct (decide (better (statsOf c x) b)) as [Hbetter|Hnot];
          cbn [fst snd].
        -- (* the candidate takes over *)
           exists (length l). split; [by rewrite list_lookup_middle|].
           do 2 (split; [done|]).
           intros j q Hj Hq. apply lookup_app_Some in Hj as [Hj|[Hlen Hj]].
           ++ pose proof (lookup_lt_Some _ _ _ Hj) as Hjlt.
              split; [|lia]. intros _.
              destruct (Hopt j q Hj Hq) as [Hlt Hge].
              destruct (decide (j < k)%nat) as [Hjk|Hjk].
              ** specialize (Hlt Hjk). unfold better in *. lia.
              ** assert (Hq' : ~ better (statsOf c q) b) by (apply Hge; lia).
                 unfold better in *. lia.
           ++ apply list_lookup_singleton_Some in Hj as [_ <-].
              split; [lia|]. intros _. unfold better. lia.
        -- (* the running best stays *)
           exists k. split; [by apply lookup_app_l_Some|]. do 2 (split; [done|]).
           intros j q Hj Hq. apply lookup_app_Some in Hj as [Hj|[Hlen Hj]].
           ++ by apply Hopt.
           ++ apply list_lookup_singleton_Some in Hj as [_ <-].
              split; [lia|]. by intros _.
      * (* the first candidate that raises coverage *)
        destruct IH as [_ Hall]. cbn [fst snd].
        exists (length l). split; [by rewrite list_lookup_middle|].
        do 2 (split; [done|]).
        intros j q Hj Hq. apply lookup_app_Some in Hj as [Hj|[Hlen Hj]].
        -- exfalso. apply Hq, Hall. apply list_elem_of_In.
           by eapply list_elem_of_lookup_2.
        -- apply list_lookup_singleton_Some in Hj as [_ <-].
           split; [lia|]. intros _. unfold better. lia.
Qed.

Lemma statsOf_ext (c c' : Coverer) (path : Path) :
  elems (coveredPath c') = elems (coveredPath c) ->
  coverCount c' = coverCount c -> covFuncs c' = covFuncs c ->
  historyLen c' = historyLen c ->
  statsOf c' path = statsOf c path.
Proof.
  intros Helems Hcount Hfuncs Hh.
  assert (Hprefix : contextPrefix c' = contextPrefix c).
  { unfold contextPrefix, len. by rewrite Helems, Hh. }
  assert (HhLen : hLenOf c' = hLenOf c).
  { unfold hLenOf, len. by rewrite Helems, Hh. }
  unfold statsOf. rewrite Hprefix, HhLen.
  rewrite (covFunc_ext c c'), (countNew_ext c c') by done.
  by apply estimateLoop_ext.
Qed.

Lemma estimated_statsOf (c : Coverer) (path : Path) (est : CoverageIncreaseStats) :
  (0 <= historyLen c)%Z -> estimated c path est <-> est = statsOf c path.
Proof.
  intros Hh. split.
  - intros [c' Hest]. by apply EstimateCoverageIncrease_inv in Hest as (_ & ? & _).
  - intros ->. destruct (EstimateCoverageIncrease_Ok c path Hh) as (c' & Hest & _).
    by exists c'.
Qed.

Lemma statsOf_MaxIncrease_nonneg (c : Coverer) (path : Path) :
  (0 <= MaxIncrease (statsOf c path))%Z.
Proof. rewrite statsOf_MaxIncrease. lia. Qed.

(** ** cover.go: shuffling *)

Lemma insert_In {B : Type} (l : list B) (i : nat) (x y : B) :
  In x (<[i := y]> l) -> x = y \/ In x l.
Proof.
  intros Hin. apply list_elem_of_In, list_elem_of_lookup in Hin as [k Hk].
  apply list_lookup_insert_Some in Hk as [(_ & -> & _)|[_ Hk]]; [by left|right].
  apply list_elem_of_In. by eapply list_elem_of_lookup_2.
Qed.

Lemma swap_Ok (paths : list Path) (i j : Z) :
  (0 <= i < Z.of_nat (length paths))%Z -> (0 <= j < Z.of_nat (length paths))%Z ->
  exists paths', swap paths i j = Ok paths' /\
                 length paths' = length paths /\
                 forall p, In p paths' -> In p paths.
Proof.
  intros Hi Hj. unfold swap.
  destruct (Z.ltb_spec i 0); [lia|]. destruct (Z.ltb_spec j 0); [lia|].
  cbn [orb].
  destruct (lookup_lt_is_Some_2 paths (Z.to_nat i)) as [pi Hpi]; [lia|].
  destruct (lookup_lt_is_Some_2 paths (Z.to_nat j)) as [pj Hpj]; [lia|].
  rewrite Hpi, Hpj. eexists. split; [done|]. split.
  - by rewrite !length_insert.
  - intros p Hp. apply insert_In in Hp as [->|Hp].
    + apply list_elem_of_In. by eapply list_elem_of_lookup_2.
    + apply insert_In in Hp as [->|Hp]; [|done].
      apply list_elem_of_In. by eapply list_elem_of_lookup_2.
Qed.

Lemma swaps_Ok (paths : list Path) (calls : list (Z * Z)) :
  (forall i j, In (i, j) calls ->
     (0 <= i < Z.of_nat (length paths))%Z /\ (0 <= j < Z.of_nat (length paths))%Z) ->
  exists paths', swaps paths calls = Ok paths' /\
                 forall p, In p paths' -> In p paths.
Proof.
  revert paths. induction calls as [|[i j] calls IH]; intros paths Hrange.
  - exists paths. done.
  - cbn [swaps].
    destruct (swap_Ok paths i j) as (paths1 & Hswap & Hlen & Hin);
      [apply (Hrange i j); by left..|].
    rewrite Hswap. cbn [mbind result_bind].
    destruct (IH paths1) as (paths2 & Hswaps & Hin2).
    { intros i' j' Hc. rewrite Hlen. apply Hrange. by right. }
    exists paths2. split; [done|]. auto.
Qed.

Lemma ShufflePaths_Ok `{!ShuffleInRange rt} (c : Coverer) (paths : list Path) :
  exists paths' c',
    ShufflePaths c paths = Ok (paths', c') /\
    (forall p, In p paths' -> In p paths) /\
    coveredPath c' = coveredPath c /\ coverCount c' = coverCount c /\
    covFuncs c' = covFuncs c /\ historyLen c' = historyLen c /\
    randomness c' = randomness c.
Proof.
  unfold ShufflePaths. destruct (rand c) as [r|].
  - destruct (rand_Shuffle r (Z.of_nat (length paths))) as [calls r'] eqn:Hsh.
    destruct (swaps_Ok paths calls) as (paths' & Hswaps & Hin).
    { intros i j Hc. apply (shuffle_in_range r). by rewrite Hsh. }
    rewrite Hswaps. cbn [mbind result_bind]. eexists _, _. split; [done|]. done.
  - exists paths, c. done.
Qed.

(** ** BestPath *)

(** C1. With randomness "none", whenever [Model.Paths] returns the
    candidates [paths], [BestPath] returns. If some candidate has a
    positive estimated [MaxIncrease], the result is the candidate at an
    index [k] with its estimate, such that it ranks strictly above every
    earlier candidate of positive increase and no later one ranks above
    it, in the order: higher [MaxIncrease], then lower [MaxStep], then
    lower [FirstStep], then higher [FirstIncrease]; so among fully tied
    candidates the earliest wins. If no candidate has a positive
    increase the result is [(nil, nil)]. *)
Theorem BestPath_none_optimal (fuel : nat) (c : Coverer) (m : Model) (s : State)
    (maxLen : Z) (paths : list Path) :
  randomness c = BestPathRandomNone ->
  (0 <= historyLen c)%Z ->
  Paths fuel m s maxLen = Ok paths ->
  exists bestPath best c',
    BestPath fuel c m s maxLen = Ok (bestPath, best, c') /\
    match best with
    | None =>
        bestPath = [] /\
        forall q est, In q paths -> estimated c q est -> MaxIncrease est = 0%Z
    | Some est =>
        exists k : nat,
          paths !! k = Some bestPath /\ estimated c bestPath est /\
          (0 < MaxIncrease est)%Z /\
          forall (j : nat) (q : Path) (est' : CoverageIncreaseStats),
            paths !! j = Some q -> estimated c q est' -> (0 < MaxIncrease est')%Z ->
            ((j < k)%nat -> better est est') /\
            ((k <= j)%nat -> ~ better est' est)
    end.
Proof.
  intros Hnone Hh Hpaths. unfold BestPath. rewrite Hpaths.
  cbn [mbind result_bind]. unfold BestPath_among.
  rewrite Hnone. cbn [Z.eqb BestPathRandomNone negb mbind result_bind].
  destruct (BestPath_loop_none c paths Hnone Hh c [] None (same_view_refl c))
    as (c2 & Hloop & Hview).
  rewrite Hloop. cbn [mbind result_bind].
  pose proof (choose_fold_selected c paths) as Hsel.
  destruct (fold_left (choose c) paths ([], None)) as [bestPath best].
  unfold selected in Hsel. cbn [fst snd] in *.
  destruct best as [est|].
  - destruct Hsel as (k & Hk & Hest & Hne & Hopt).
    assert (Hnonempty : bestPath <> []).
    { apply (Paths_nonempty fuel m s maxLen paths); [done|].
      apply list_elem_of_In. by eapply list_elem_of_lookup_2. }
    destruct bestPath as [|step bestPath]; [done|]. cbn [length Nat.eqb].
    eexists _, _, _. split; [done|]. exists k.
    split; [done|]. split; [by apply estimated_statsOf|].
    pose proof (statsOf_MaxIncrease_nonneg c (step :: bestPath)) as Hge.
    split; [subst est; lia|].
    intros j q est' Hj Hq Hpos. apply estimated_statsOf in Hq as ->; [|done].
    apply (Hopt j q Hj). lia.
  - destruct Hsel as [-> Hall]. cbn [length Nat.eqb].
    eexists _, _, _. split; [done|]. split; [done|].
    intros q est Hq Hest. apply estimated_statsOf in Hest as ->; [|done].
    by apply Hall.
Qed.

(** C4. Whatever the randomness mode, whenever [Model.Paths] returns
    the candidates [paths], [BestPath] returns; a returned path is one
    of the candidates, it comes with its own estimate, and that
    estimate has a non-zero [MaxIncrease]; without statistics the
    returned path is nil; and when every candidate has an estimated
    [MaxIncrease] of 0, in particular when there is no candidate, the
    result is [(nil, nil)]. *)
Theorem BestPath_never_zero `{!ShuffleInRange rt} (fuel : nat) (c : Coverer)
    (m : Model) (s : State) (maxLen : Z) (paths : list Path) :
  (0 <= historyLen c)%Z ->
  Paths fuel m s maxLen = Ok paths ->
  exists bestPath best c',
    BestPath fuel c m s maxLen = Ok (bestPath, best, c') /\
    (forall est, best = Some est ->
       bestPath <> [] /\ In bestPath paths /\ estimated c bestPath est /\
       MaxIncrease est <> 0%Z) /\
    (best = None -> bestPath = []) /\
    ((forall q est, In q paths -> estimated c q est -> MaxIncrease est = 0%Z) ->
     bestPath = [] /\ best = None).
Proof.
  intros Hh Hpaths. unfold BestPath. rewrite Hpaths.
  cbn [mbind result_bind]. unfold BestPath_among.
  assert (Hsh : exists paths1 c1,
    (if negb (randomness c =? BestPathRandomNone)%Z
     then ShufflePaths c paths else Ok (paths, c)) = Ok (paths1, c1) /\
    (forall p, In p paths1 -> In p paths) /\
    coveredPath c1 = coveredPath c /\ coverCount c1 = coverCount c /\
    covFuncs c1 = covFuncs c /\ historyLen c1 = historyLen c /\
    randomness c1 = randomness c).
  { destruct (negb _); [apply ShufflePaths_Ok|]. exists paths, c. done. }
  destruct Hsh as (paths1 & c1 & -> & Hin & Hcp & Hcount & Hfuncs & Hhl & Hrnd).
  cbn [mbind result_bind].
  assert (Hstats : forall p, statsOf c1 p = statsOf c p).
  { intros p. apply statsOf_ext; congruence. }
  assert (Hh1 : (0 <= historyLen c1)%Z) by (by rewrite Hhl).
  destruct (BestPath_loop_sound c1 paths1 Hh1 c1 [] None (same_view_refl c1))
    as (bestPath & best & c2 & Hloop & _ & Hres & Hzero).
  rewrite Hloop. cbn [mbind result_bind].
  destruct Hres as [[= -> ->]|(Hbp & -> & Hne)].
  - cbn [length Nat.eqb]. eexists _, _, _. split; [done|]. done.
  - rewrite Hstats in *.
    assert (Hnonempty : bestPath <> [])
      by (apply (Paths_nonempty fuel m s maxLen paths); auto).
    destruct bestPath as [|step bestPath]; [done|]. cbn [length Nat.eqb].
    eexists _, _, _. split; [done|]. split; [|split; [done|]].
    + intros est [= <-]. split; [done|]. split; [auto|].
      split; [by apply estimated_statsOf|done].
    + intros Hall. exfalso. apply Hne. apply (Hall (step :: bestPath)); [auto|].
      by apply estimated_statsOf.
Qed.

(** ** EstimateCoverageIncrease *)

(** C2. [EstimateCoverageIncrease] returns, and its [MaxIncrease] is the
    number of distinct items that the registered coverage functions
    produce over the context prefix followed by the candidate and whose
    count in the histogram is zero; the context prefix being the last
    [min(historyLen, len(coveredPath))] steps of the covered path. The
    history length of a Coverer is never negative. *)
Theorem EstimateCoverageIncrease_MaxIncrease (c : Coverer) (path : Path) :
  (0 <= historyLen c)%Z ->
  exists est c',
    EstimateCoverageIncrease c path = Ok (est, c') /\
    MaxIncrease est
    = Z.of_nat (size (newItems c (contextPrefix c ++ path))).
Proof.
  intros Hh. destruct (EstimateCoverageIncrease_Ok c path Hh) as (c' & Hest & _).
  exists (statsOf c path), c'. split; [done|]. apply statsOf_MaxIncrease.
Qed.




(** C8. [EstimateCoverageIncrease] returns for every Coverer (whose
    history length is, as always, not negative), and when it returns
    the Coverer looks the same from outside: the covered path and its
    capacity, the histogram, the coverage functions, the history length
    and the random generator with its mode are as before. Only unused
    cells of the backing array of the covered path may have been
    written. *)
Theorem EstimateCoverageIncrease_frame (c : Coverer) (path : Path) :
  ((0 <= historyLen c)%Z ->
   exists est c', EstimateCoverageIncrease c path = Ok (est, c')) /\
  (forall est c', EstimateCoverageIncrease c path = Ok (est, c') -> same_view c c').
Proof.
  split.
  - intros Hh. destruct (EstimateCoverageIncrease_Ok c path Hh) as (c' & Hest & _).
    eauto.
  - intros est c' Hest. by apply EstimateCoverageIncrease_inv in Hest as (_ & _ & ?).
Qed.

(** ** Coverage functions *)

Lemma ActionNames_eq (path : Path) :
  ActionNames path = map (fun t => name (action t)) path.
Proof. unfold ActionNames. by rewrite fold_left_snoc. Qed.

Lemma ActionFormats_eq (path : Path) :
  ActionFormats path = map (fun t => format (action t)) path.
Proof. unfold ActionFormats. by rewrite fold_left_snoc. Qed.

Lemma StateStrings_eq (path : Path) :
  StateStrings path
  = match path with
    | [] => []
    | step0 :: _ =>
        StateString (start step0) :: map (fun step => StateString (end_ step)) path
    end.
Proof. unfold StateStrings. destruct path; [done|]. by rewrite fold_left_snoc. Qed.

Lemma StateActionStrings_eq (path : Path) :
  StateActionStrings path
  = map (fun step => StateString (StartState step) +:+ sep0 +:+ name (action step))
        path.
Proof. unfold StateActionStrings. by rewrite fold_left_snoc. Qed.

Lemma combinations_eq (items : Path -> list string) (sep : string)
    (combLenMax : Z) (path : Path) :
  combinations items sep combLenMax path
  = concat (map (fun combLen =>
                   map (fun first => Join (items (take combLen (drop first path))) sep)
                       (seq 0 (S (length path) - combLen)))
                (seq 1 (Z.to_nat combLenMax))).
Proof.
  unfold combinations. generalize (seq 1 (Z.to_nat combLenMax)) as lens.
  enough (Hgen : forall lens acc,
    fold_left
      (fun combs combLen =>
         fold_left
           (fun combs first =>
              combs ++ [Join (items (take combLen (drop first path))) sep])
           (seq 0 (S (length path) - combLen)) combs)
      lens acc
    = acc ++ concat (map (fun combLen =>
                 map (fun first => Join (items (take combLen (drop first path))) sep)
                     (seq 0 (S (length path) - combLen))) lens))
    by (intros lens; apply (Hgen lens [])).
  induction lens as [|combLen lens IH]; intros acc; simpl.
  - by rewrite app_nil_r.
  - rewrite IH.
    rewrite (fold_left_snoc
               (fun first => Join (items (take combLen (drop first path))) sep)).
    by rewrite <- app_assoc.
Qed.

Lemma covFunc_eq (c : Coverer) (path : Path) :
  covFunc c path = concat (map (fun f => f path) (covFuncs c)).
Proof. unfold covFunc. by rewrite fold_left_append. Qed.

Lemma covFunc_In (c : Coverer) (path : Path) (x : string) :
  In x (covFunc c path) <-> exists f, In f (covFuncs c) /\ In x (f path).
Proof.
  rewrite covFunc_eq, in_concat. split.
  - intros (l & Hl & Hx). apply in_map_iff in Hl as (f & <- & Hf). eauto.
  - intros (f & Hf & Hx). exists (f path). split; [|done].
    apply in_map_iff. eauto.
Qed.

Lemma ActionNames_monotone : monotone (State:=State) ActionNames.
Proof.
  intros p q x. rewrite !ActionNames_eq, map_app. intros Hx.
  apply in_or_app. by left.
Qed.

Lemma ActionFormats_monotone : monotone (State:=State) ActionFormats.
Proof.
  intros p q x. rewrite !ActionFormats_eq, map_app. intros Hx.
  apply in_or_app. by left.
Qed.

Lemma StateStrings_monotone : monotone (State:=State) StateStrings.
Proof.
  intros p q x. rewrite !StateStrings_eq. destruct p as [|step0 p]; [done|].
  cbn [app]. rewrite !map_cons, map_app. intros [Hx|[Hx|Hx]].
  - by left.
  - right. by left.
  - right. right. apply in_or_app. by left.
Qed.

Lemma StateActionStrings_monotone : monotone (State:=State) StateActionStrings.
Proof.
  intros p q x. rewrite !StateActionStrings_eq, map_app. intros Hx.
  apply in_or_app. by left.
Qed.

Lemma combinations_monotone (items : Path -> list string) (sep : string)
    (combLenMax : Z) :
  monotone (combinations items sep combLenMax).
Proof.
  intros p q x. rewrite !combinations_eq, !in_concat.
  intros (l & Hl & Hx). apply in_map_iff in Hl as (combLen & <- & HcombLen).
  apply in_map_iff in Hx as (first & <- & Hfirst).
  apply in_seq in Hfirst.
  eexists. split.
  - apply in_map_iff. exists combLen. split; [reflexivity|done].
  - apply in_map_iff. exists first. split.
    + rewrite drop_app_le by lia. rewrite take_app_le; [done|].
      rewrite length_drop. lia.
    + apply in_seq. rewrite length_app. lia.
Qed.

(** ** The invariant of the Coverer *)

Lemma incr_fold_dom (items : list string) (m : gmap string Z) :
  dom (fold_left incr items m) = dom m ∪ list_to_set items.
Proof.
  revert m. induction items as [|x items IH]; intros m; simpl; [set_solver|].
  rewrite IH, incr_dom. set_solver.
Qed.

Lemma addCovFunc_inv (c : Coverer) (f : Path -> list string) :
  monotone f -> cover_inv c -> cover_inv (addCovFunc c f).
Proof.
  intros Hf (Hh & Hmono & Hdom). split; [done|]. split.
  - cbn. apply Forall_app. split; [done|]. by apply Forall_singleton.
  - intros x Hx. cbn [addCovFunc coverCount coveredPath] in *.
    apply Hdom in Hx. apply covFunc_In in Hx as (g & Hg & Hx).
    apply covFunc_In. exists g. split; [|done]. cbn. apply in_or_app. by left.
Qed.

Lemma setHistoryLen_inv (c : Coverer) (combLenMax : Z) :
  cover_inv c -> cover_inv (setHistoryLen c combLenMax).
Proof.
  intros (Hh & Hmono & Hdom). unfold setHistoryLen.
  destruct (Z.ltb_spec (historyLen c) combLenMax); [|done].
  split; [cbn; lia|]. split; [done|]. done.
Qed.

Lemma UpdateCoverage_dom (c : Coverer) :
  dom (coverCount (UpdateCoverage c))
  = list_to_set (covFunc c (elems (coveredPath c))).
Proof. cbn. rewrite incr_fold_dom, dom_empty_L. set_solver. Qed.

Lemma UpdateCoverage_inv (c : Coverer) : cover_inv c -> cover_inv (UpdateCoverage c).
Proof.
  intros (Hh & Hmono & Hdom). split; [done|]. split; [done|].
  intros x. rewrite UpdateCoverage_dom, elem_of_list_to_set, list_elem_of_In.
  done.
Qed.

Lemma covFunc_monotone (c : Coverer) (p q : Path) (x : string) :
  Forall monotone (covFuncs c) -> In x (covFunc c p) -> In x (covFunc c (p ++ q)).
Proof.
  intros Hmono Hx. apply covFunc_In in Hx as (f & Hf & Hx).
  apply covFunc_In. exists f. split; [done|].
  rewrite Forall_forall in Hmono. apply (Hmono f); [|done].
  by apply list_elem_of_In.
Qed.

Lemma MarkCovered_inv (c : Coverer) (steps : list Step) :
  cover_inv c -> cover_inv (MarkCovered c steps).
Proof.
  intros (Hh & Hmono & Hdom). split; [done|]. split; [done|].
  intros x Hx. cbn [MarkCovered coveredPath coverCount] in *.
  rewrite append_elems.
  replace (covFunc (MarkCovered c steps)) with (covFunc c) by done.
  apply covFunc_monotone; [done|]. by apply Hdom.
Qed.

Lemma cover_inv_ext (c c' : Coverer) :
  elems (coveredPath c') = elems (coveredPath c) ->
  coverCount c' = coverCount c -> covFuncs c' = covFuncs c ->
  historyLen c' = historyLen c ->
  cover_inv c -> cover_inv c'.
Proof.
  intros Helems Hcount Hfuncs Hh (Hh0 & Hmono & Hdom). unfold cover_inv.
  rewrite Helems, Hcount, Hfuncs, Hh. split; [done|]. split; [done|].
  intros x Hx. rewrite (covFunc_ext c c') by done. by apply Hdom.
Qed.

Lemma ShufflePaths_fields (c c' : Coverer) (paths paths' : list Path) :
  ShufflePaths c paths = Ok (paths', c') ->
  coveredPath c' = coveredPath c /\ coverCount c' = coverCount c /\
  covFuncs c' = covFuncs c /\ historyLen c' = historyLen c.
Proof.
  unfold ShufflePaths. destruct (rand c) as [r|]; [|by intros [= <- <-]].
  destruct (rand_Shuffle r _) as [calls r'].
  destruct (swaps paths calls); cbn; [|done..]. by intros [= <- <-].
Qed.

Lemma BestPath_fields (fuel : nat) (c c' : Coverer) (m : Model) (s : State)
    (maxLen : Z) (r : Path * option CoverageIncreaseStats) :
  (0 <= historyLen c)%Z ->
  BestPath fuel c m s maxLen = Ok (r, c') ->
  elems (coveredPath c') = elems (coveredPath c) /\ coverCount c' = coverCount c /\
  covFuncs c' = covFuncs c /\ historyLen c' = historyLen c.
Proof.
  intros Hh. unfold BestPath. destruct (Paths fuel m s maxLen) as [paths| |]; [|done..].
  cbn [mbind result_bind]. unfold BestPath_among.
  destruct (if negb (randomness c =? BestPathRandomNone)%Z
            then ShufflePaths c paths else Ok (paths, c))
    as [[paths1 c1]| |] eqn:Hsh; [|done..].
  assert (Hc1 : coveredPath c1 = coveredPath c /\ coverCount c1 = coverCount c /\
                covFuncs c1 = covFuncs c /\ historyLen c1 = historyLen c).
  { destruct (negb _); [by apply ShufflePaths_fields in Hsh|].
    by injection Hsh as <- <-. }
  destruct Hc1 as (Hcp & Hcount & Hfuncs & Hhl).
  cbn [mbind result_bind].
  assert (Hh1 : (0 <= historyLen c1)%Z) by (by rewrite Hhl).
  destruct (BestPath_loop_sound c1 paths1 Hh1 c1 [] None (same_view_refl c1))
    as (bestPath & best & c2 & Hloop & Hview & _).
  rewrite Hloop. cbn [mbind result_bind].
  destruct Hview as (Helems & _ & Hcount2 & Hfuncs2 & Hh2 & _).
  destruct (length bestPath =? 0)%nat; intros [= <- <-];
    rewrite Helems, Hcount2, Hfuncs2, Hh2, Hcp; done.
Qed.

Lemma reachable_inv (c : Coverer) : reachable c -> cover_inv c.
Proof.
  induction 1 as [|c _ IH|c _ IH|c n _ IH _|c n _ IH _|c _ IH|c _ IH|c n _ IH _
                  |c _ IH|c steps _ IH|c seed rnd _ IH|c path est c' _ IH Hest
                  |c fuel m s maxLen r c' _ IH Hbest].
  - split; [done|]. split; [by apply Forall_nil|]. intros x Hx. set_solver.
  - apply addCovFunc_inv; [apply ActionNames_monotone|done].
  - apply addCovFunc_inv; [apply ActionFormats_monotone|done].
  - apply addCovFunc_inv; [apply combinations_monotone|by apply setHistoryLen_inv].
  - apply addCovFunc_inv; [apply combinations_monotone|by apply setHistoryLen_inv].
  - apply addCovFunc_inv; [apply StateStrings_monotone|done].
  - apply addCovFunc_inv; [apply StateActionStrings_monotone|done].
  - apply addCovFunc_inv; [apply combinations_monotone|by apply setHistoryLen_inv].
  - by apply UpdateCoverage_inv.
  - by apply MarkCovered_inv.
  - by apply (cover_inv_ext c).
  - apply EstimateCoverageIncrease_inv in Hest as (_ & _ & Hview).
    destruct Hview as (? & _ & ? & ? & ? & _). by apply (cover_inv_ext c).
  - destruct IH as (Hh & ?). apply BestPath_fields in Hbest as (? & ? & ? & ?); [|done].
    by apply (cover_inv_ext c).
Qed.

(** C7. For a Coverer built by the exported methods, with any of the
    built-in coverage functions registered in any order, marking any
    steps covered and updating the coverage never lowers
    [Coverage()]. *)
Theorem Coverage_monotone (c : Coverer) (steps : list Step) :
  reachable c ->
  (Coverage c <= Coverage (UpdateCoverage (MarkCovered c steps)))%Z.
Proof.
  intros Hreach. apply reachable_inv in Hreach as (_ & Hmono & Hdom).
  unfold Coverage. apply inj_le.
  rewrite <- !size_dom. apply subseteq_size.
  rewrite UpdateCoverage_dom. intros x Hx.
  apply elem_of_list_to_set, list_elem_of_In.
  cbn [MarkCovered coveredPath]. rewrite append_elems.
  replace (covFunc (MarkCovered c steps)) with (covFunc c) by done.
  apply covFunc_monotone; [done|]. by apply Hdom.
Qed.

(** ** Path enumeration *)

(** C6, as the code has it. Adjacent steps of an enumerated path
    connect: the end state of a step renders as the start state of the
    next one. This holds of every path [Model.Paths] returns, for any
    depth. For a walker it holds when the step filter, if one is set,
    only selects among the steps it is given (the walker stores
    whatever the filter returns): then, for a depth that is a
    non-negative [int] within what [make] allocates, [Walker.Paths]
    returns and every path it returns is such a path, and
    [Walker.IterPaths] only ever yields such paths (as the yielded
    slice reads when it is yielded): what a consumer maintains on
    being handed a chained path holds when the iteration is over. *)
Theorem enumerated_paths_chained :
  (forall (fuel : nat) (m : Model) (s : State) (maxLen : Z) (paths : list Path),
     Paths fuel m s maxLen = Ok paths -> Forall chained paths) /\
  (forall (w : Walker) (fuel : nat) (s : State) (maxLen : Z),
     selecting w -> (0 <= maxLen <= maxInt)%Z -> (maxLen <= makeslice_max)%Z ->
     (Z.to_nat maxLen < fuel)%nat ->
     (exists paths : list PathBuf,
        Walker_Paths fuel w s maxLen = Ok paths /\
        Forall (fun q => exists p : Path, q = Some <$> p /\ chained p) paths) /\
     (forall (A : Type) (yield : A -> PathBuf -> A * bool) (P : A -> Prop) (a : A),
        (forall (a : A) (p : Path), P a -> chained p -> P (fst (yield a (Some <$> p)))) ->
        P a ->
        exists a', IterPaths yield fuel w s maxLen a = Ok a' /\ P a')).
Proof.
  split.
  - intros fuel m s maxLen paths Hpaths. apply Paths_path_from in Hpaths.
    eapply Forall_impl; [exact Hpaths|]. by intros p (_ & ? & _).
  - intros w fuel s maxLen Hsel Hmax Hmake Hfuel.
    pose proof (walk_path_from w (Z.to_nat maxLen) s Hsel) as Hwalk.
    split.
    + rewrite Walker_Paths_walk by done. eexists. split; [done|].
      apply Forall_fmap. eapply Forall_impl; [exact Hwalk|].
      intros p [Hch _]. by exists p.
    + intros A yield P a Hyield Ha.
      rewrite IterPaths_feed by done. eexists. split; [done|].
      apply (feed_invariant yield P
               (fun q => exists p : Path, q = Some <$> p /\ chained p)).
      * intros a1 q Ha1 (p & -> & Hch). by apply Hyield.
      * done.
      * apply Forall_fmap. eapply Forall_impl; [exact Hwalk|].
        intros p [Hch _]. by exists p.
Qed.

(** C5, as the code has it. From a state without applicable
    transitions and for a depth that is not negative, [Model.Paths]
    returns no path at all. A walker on the model, whose step filter
    (if any) keeps nothing of nothing, returns exactly one path from
    [Walker.Paths], the empty one, and yields exactly that path from
    [Walker.IterPaths], when the depth is within what [make]
    allocates; beyond that it panics before anything is yielded. *)
Theorem dead_end_paths (m : Model) (s : State) (maxLen : Z) (fuel : nat) :
  StepsFrom m s = [] -> (0 <= maxLen)%Z -> (0 < fuel)%nat ->
  Paths fuel m s maxLen = Ok [] /\
  (forall w : Walker,
     w_m w = m -> (forall f, stepFilter w = Some f -> f [] = []) ->
     ((maxLen <= makeslice_max)%Z ->
      Walker_Paths fuel w s maxLen = Ok [[]] /\
      forall (A : Type) (yield : A -> PathBuf -> A * bool) (a : A),
        IterPaths yield fuel w s maxLen a = Ok (fst (yield a []))) /\
     ((makeslice_max < maxLen)%Z ->
      Walker_Paths fuel w s maxLen = Panic /\
      forall (A : Type) (yield : A -> PathBuf -> A * bool) (a : A),
        IterPaths yield fuel w s maxLen a = Panic)).
Proof.
  intros Hdead Hmax Hfuel. destruct fuel as [|fuel]; [lia|]. split.
  - cbn [Paths]. destruct (maxLen =? 0)%Z; [done|]. by rewrite Hdead.
  - intros w Hm Hfilter. split; intros Hmake.
    + assert (Hiter : forall (A : Type) (yield : A -> PathBuf -> A * bool) (a : A),
                IterPaths yield (S fuel) w s maxLen a = Ok (fst (yield a []))).
      { intros A yield a. unfold IterPaths.
        destruct (Z.ltb_spec maxLen 0); [lia|].
        destruct (Z.ltb_spec makeslice_max maxLen); [lia|].
        cbn [orb yieldPaths].
        destruct (Z.eqb_spec 0 maxLen) as [<-|Hne].
        - change (replicate (Z.to_nat 0) None) with ([] : PathBuf).
          by destruct (yield a []).
        - rewrite Hm, Hdead.
          assert (Hnext : match stepFilter w with
                          | Some f => f []
                          | None => []
                          end = ([] : list Step)).
          { destruct (stepFilter w) as [f|] eqn:Hf; [by apply Hfilter|done]. }
          rewrite Hnext. cbn.
          destruct (Z.ltb_spec (Z.of_nat (length (replicate (Z.to_nat maxLen)
                                                (None : option Step)))) 0); [lia|].
          change (take (Z.to_nat 0) ?l) with ([] : PathBuf).
          by destruct (yield a []). }
      split; [|exact Hiter]. unfold Walker_Paths. by rewrite Hiter.
    + split; [|intros A yield a]; by apply IterPaths_make_panics.
Qed.

(** C10, as the code has it. For a depth that is a non-negative
    [int], [Model.Paths] returns, and it returns no path exactly when
    the depth is 0 or the state has no applicable step. For a depth
    within what [make] allocates, [Walker.Paths] without a step
    filter returns too: the same sequence of paths when [Model.Paths]
    returns at least one path, and one path, the empty one, when
    [Model.Paths] returns none. For a depth beyond what [make]
    allocates [Walker.Paths] panics. *)
Theorem Walker_Paths_vs_Model_Paths (m : Model) (s : State) (maxLen : Z)
    (fuel : nat) :
  (0 <= maxLen <= maxInt)%Z -> (Z.to_nat maxLen < fuel)%nat ->
  exists paths : list Path,
    Paths fuel m s maxLen = Ok paths /\
    (paths = [] <-> maxLen = 0%Z \/ StepsFrom m s = []) /\
    ((maxLen <= makeslice_max)%Z ->
     Walker_Paths fuel (NewWalker m) s maxLen
     = Ok (if (length paths =? 0)%nat then [[]] else map (fmap Some) paths)) /\
    ((makeslice_max < maxLen)%Z ->
     Walker_Paths fuel (NewWalker m) s maxLen = Panic).
Proof.
  intros Hmax Hfuel. exists (pathsN m (Z.to_nat maxLen) s).
  split; [by apply Paths_pathsN|]. split; [|split].
  - rewrite pathsN_nil. split; (intros [?|?]; [left; lia|by right]).
  - intros Hmake. rewrite Walker_Paths_walk, walk_pathsN by done.
    by destruct (length _ =? 0)%nat.
  - intros Hmake. by apply IterPaths_make_panics.
Qed.

End Properties.

(** * The player model *)

Section Player.
Context {rt : GoRuntime}.

(** C9. The player scenario of [TestCoverPlayerActions]: from the
    paused player on song 1, with action coverage registered by
    [CoverActionCombinations(1)] on a fresh Coverer and no randomness,
    [BestPath] with depth 6 returns a path of 6 steps whose
    [MaxIncrease] is 4 and whose [MaxStep] is 3, and each of [play],
    [pause], [nextsong] and [prevsong] is the action of one of its
    first four steps. *)
Theorem TestCoverPlayerActions (fuel : nat) :
  (6 < fuel)%nat ->
  exists path stats c',
    BestPath fuel (CoverActionCombinations NewCoverer 1)
             newPlayerModelWithRawTransitions state0 6
    = Ok (path, Some stats, c') /\
    length path = 6%nat /\
    MaxIncrease stats = 4%Z /\
    MaxStep stats = 3%Z /\
    forall a, In a ["play"; "pause"; "nextsong"; "prevsong"]%string ->
              In a (ActionNames (take 4 path)).
Proof.
  intros Hfuel. unfold BestPath.
  rewrite Paths_pathsN by (unfold maxInt; lia).
  cbn [mbind result_bind].
  set (r := BestPath_among _ _). vm_compute in r. subst r.
  eexists _, _, _. split; [reflexivity|].
  split; [reflexivity|]. split; [reflexivity|]. split; [reflexivity|].
  intros a Ha. vm_compute. simpl in Ha. intuition.
Qed.

End Player.

(** ** The example runtime respects the contract of Shuffle *)

Lemma fisherYates_in_range (n : nat) (r : Z) (i j : Z) :
  In (i, j) (fst (fisherYates n r)) ->
  (1 <= i <= Z.of_nat n)%Z /\ (0 <= j <= i)%Z.
Proof.
  revert r. induction n as [|n IH]; intros r; [done|].
  cbn [fisherYates].
  destruct (fisherYates n (lcg r)) as [calls r'] eqn:Hrec.
  cbn [fst]. intros [[= <- <-]|Hin].
  - pose proof (Z.mod_pos_bound (lcg r) (Z.of_nat (S n) + 1)). lia.
  - specialize (IH (lcg r)). rewrite Hrec in IH. specialize (IH Hin). lia.
Qed.

#[global] Instance exampleRuntime_in_range : ShuffleInRange exampleRuntime.
Proof.
  intros r n i j Hin. cbn in Hin. apply fisherYates_in_range in Hin. lia.
Qed.

(** ** Instances on the player model *)


(** The history window counts. With [pause] marked but not counted, the
    candidate [play] produces by itself only [play], which is counted;
    yet the estimate finds a first increase at its first step, the
    [pause] of the window. *)
Example EstimateCoverageIncrease_counts_window :
  Forall (fun s => isNew covererStale s = false) (covFunc covererStale [stepPlay]) /\
  exists est c',
    EstimateCoverageIncrease covererStale [stepPlay] = Ok (est, c') /\
    FirstStep est = 0%Z /\ FirstIncrease est = 1%Z /\
    MaxStep est = 0%Z /\ MaxIncrease est = 1%Z.
Proof.
  split.
  - assert (Hall : forallb (fun s => negb (isNew covererStale s))
                     (covFunc covererStale [stepPlay]) = true)
      by (vm_compute; reflexivity).
    apply Forall_forall. intros x Hx.
    rewrite forallb_forall in Hall. apply list_elem_of_In in Hx.
    specialize (Hall x Hx). by destruct (isNew covererStale x).
  - destruct (EstimateCoverageIncrease_Ok covererStale [stepPlay])
      as (c' & Hest & _); [vm_compute; discriminate|].
    exists (statsOf covererStale [stepPlay]), c'. split; [exact Hest|].
    assert (Hfs : FirstStep (statsOf covererStale [stepPlay]) = 0%Z)
      by (vm_compute; reflexivity).
    assert (Hfi : FirstIncrease (statsOf covererStale [stepPlay]) = 1%Z)
      by (vm_compute; reflexivity).
    assert (Hms : MaxStep (statsOf covererStale [stepPlay]) = 0%Z)
      by (vm_compute; reflexivity).
    assert (Hmi : MaxIncrease (statsOf covererStale [stepPlay]) = 1%Z)
      by (vm_compute; reflexivity).
    rewrite Hfs, Hfi, Hms, Hmi. repeat split; reflexivity.
Qed.

(** C6 fails for a walker whose step filter returns a step it was not
    given: the walker stores [play] twice, and the second [play] does
    not start where the first one ends. *)
Lemma enumerated_paths_chained_counterexample :
  Walker_Paths (rt := exampleRuntime) 3 walkerForeign state0 2
  = Ok [[Some stepPlay; Some stepPlay]] /\
  ~ chained [stepPlay; stepPlay].
Proof.
  split; [vm_compute; reflexivity|].
  intros Hch. specialize (Hch 0%nat stepPlay stepPlay eq_refl eq_refl).
  vm_compute in Hch. discriminate Hch.
Qed.

(** C5 fails for [Model.Paths]: in the model without transitions every
    state is a dead end, and no budget makes [Model.Paths] return the
    empty path as its one path. *)
Lemma dead_end_paths_counterexample :
  StepsFrom NewModel state0 = [] /\ (0 <= 3)%Z /\
  forall fuel : nat, Paths fuel NewModel state0 3 <> Ok [[]].
Proof.
  split; [reflexivity|]. split; [lia|].
  intros [|fuel]; [done|]. cbn. discriminate.
Qed.

(** C10 fails at depth 0: [Model.Paths] returns no path, [Walker.Paths]
    returns the empty path. *)
Lemma Walker_Paths_vs_Model_Paths_counterexample :
  Paths 1 newPlayerModelWithRawTransitions state0 0 = Ok [] /\
  Walker_Paths (rt := exampleRuntime) 1
    (NewWalker newPlayerModelWithRawTransitions) state0 0 = Ok [[]].
Proof. split; reflexivity. Qed.

(** The unused capacity behind the covered path is really written:
    after three steps marked one by one the backing array has a free
    cell, and an estimate leaves its candidate there. *)
Example EstimateCoverageIncrease_writes_spare :
  let c := MarkCovered (MarkCovered (MarkCovered
             (CoverActions (NewCoverer (State := PlayerState) (rt := exampleRuntime)))
             [stepPlay]) [stepPlay]) [stepPlay] in
  spare (coveredPath c) = [None] /\
  match EstimateCoverageIncrease c [stepPlay] with
  | Ok (_, c') => spare (coveredPath c') = [Some stepPlay]
  | _ => False
  end.
Proof.
  split; [reflexivity|].
  assert (Hspare :
    match EstimateCoverageIncrease
            (MarkCovered (MarkCovered (MarkCovered
               (CoverActions (NewCoverer (State := PlayerState) (rt := exampleRuntime)))
               [stepPlay]) [stepPlay]) [stepPlay]) [stepPlay] with
    | Ok (_, c') => spare (coveredPath c')
    | _ => []
    end = [Some stepPlay]) by (vm_compute; reflexivity).
  destruct (EstimateCoverageIncrease _ _) as [[est c']| |]; done.
Qed.

(** ** The theorems at work on the player model *)

Lemma BestPath_none_optimal_witness :
  exists paths,
    Paths 3 newPlayerModelWithRawTransitions state0 2 = Ok paths /\
    exists bestPath best c',
      BestPath 3 covererActions newPlayerModelWithRawTransitions state0 2
      = Ok (bestPath, best, c') /\
      match best with
      | None =>
          bestPath = [] /\
          forall q est, In q paths -> estimated covererActions q est ->
                        MaxIncrease est = 0%Z
      | Some est =>
          exists k : nat,
            paths !! k = Some bestPath /\ estimated covererActions bestPath est /\
            (0 < MaxIncrease est)%Z /\
            forall (j : nat) (q : Path PlayerState) (est' : CoverageIncreaseStats),
              paths !! j = Some q -> estimated covererActions q est' ->
              (0 < MaxIncrease est')%Z ->
              ((j < k)%nat -> better est est') /\
              ((k <= j)%nat -> ~ better est' est)
      end.
Proof.
  exists (pathsN newPlayerModelWithRawTransitions 2 state0).
  split; [vm_compute; reflexivity|].
  apply (BestPath_none_optimal 3 covererActions newPlayerModelWithRawTransitions
           state0 2).
  - reflexivity.
  - vm_compute. discriminate.
  - vm_compute. reflexivity.
Defined.

Lemma EstimateCoverageIncrease_MaxIncrease_witness :
  exists est c',
    EstimateCoverageIncrease covererPlayed [stepPlay; stepPlay] = Ok (est, c') /\
    MaxIncrease est
    = Z.of_nat (size (newItems covererPlayed
                        (contextPrefix covererPlayed ++ [stepPlay; stepPlay]))).
Proof.
  apply (EstimateCoverageIncrease_MaxIncrease covererPlayed [stepPlay; stepPlay]).
  vm_compute. discriminate.
Defined.


Lemma BestPath_never_zero_witness :
  exists paths,
    Paths 3 newPlayerModelWithRawTransitions state0 2 = Ok paths /\
    exists bestPath best c',
      BestPath 3 covererShuffling newPlayerModelWithRawTransitions state0 2
      = Ok (bestPath, best, c') /\
      (forall est, best = Some est ->
         bestPath <> [] /\ In bestPath paths /\
         estimated covererShuffling bestPath est /\ MaxIncrease est <> 0%Z) /\
      (best = None -> bestPath = []) /\
      ((forall q est, In q paths -> estimated covererShuffling q est ->
                      MaxIncrease est = 0%Z) ->
       bestPath = [] /\ best = None).
Proof.
  exists (pathsN newPlayerModelWithRawTransitions 2 state0).
  split; [vm_compute; reflexivity|].
  apply (BestPath_never_zero 3 covererShuffling newPlayerModelWithRawTransitions
           state0 2).
  - vm_compute. discriminate.
  - vm_compute. reflexivity.
Defined.

Lemma dead_end_paths_witness :
  Paths 1 NewModel state0 3 = Ok [] /\
  Walker_Paths (rt := exampleRuntime) 1 (NewWalker NewModel) state0 3 = Ok [[]] /\
  forall (A : Type) (yield : A -> PathBuf PlayerState -> A * bool) (a : A),
    IterPaths (rt := exampleRuntime) yield 1 (NewWalker NewModel) state0 3 a
    = Ok (fst (yield a [])).
Proof.
  destruct (dead_end_paths (rt := exampleRuntime) NewModel state0 3 1)
    as [Hmodel Hwalker].
  - reflexivity.
  - lia.
  - lia.
  - split; [exact Hmodel|].
    destruct (Hwalker (NewWalker NewModel)) as [Hfits _].
    + reflexivity.
    + intros f Hf. discriminate Hf.
    + apply Hfits. vm_compute. discriminate.
Defined.

Lemma enumerated_paths_chained_witness :
  Forall chained (pathsN newPlayerModelWithRawTransitions 2 state0) /\
  exists paths : list (PathBuf PlayerState),
    Walker_Paths (rt := exampleRuntime) 3
      (NewWalker newPlayerModelWithRawTransitions) state0 2 = Ok paths /\
    Forall (fun q => exists p : Path PlayerState, q = Some <$> p /\ chained p) paths.
Proof.
  destruct (enumerated_paths_chained (State := PlayerState) (rt := exampleRuntime))
    as [Hmodel Hwalker].
  split.
  - apply (Hmodel 3%nat newPlayerModelWithRawTransitions state0 2%Z).
    vm_compute. reflexivity.
  - destruct (Hwalker (NewWalker newPlayerModelWithRawTransitions) 3%nat state0 2%Z)
      as [Hpaths _].
    + intros f Hf. discriminate Hf.
    + unfold maxInt. lia.
    + vm_compute. discriminate.
    + simpl. lia.
    + exact Hpaths.
Defined.

Lemma Coverage_monotone_witness :
  (Coverage covererPlayed
   <= Coverage (UpdateCoverage (MarkCovered covererPlayed [stepPause])))%Z.
Proof.
  apply (Coverage_monotone covererPlayed [stepPause]).
  apply reach_UpdateCoverage, reach_MarkCovered, reach_CoverActions,
    reach_NewCoverer.
Defined.

Lemma EstimateCoverageIncrease_frame_witness :
  exists est c',
    EstimateCoverageIncrease covererPlayed [stepPlay] = Ok (est, c') /\
    same_view covererPlayed c'.
Proof.
  destruct (EstimateCoverageIncrease_frame covererPlayed [stepPlay])
    as [Hreturns Hframe].
  destruct Hreturns as (est & c' & Hest); [vm_compute; discriminate|].
  exists est, c'. split; [exact Hest|]. exact (Hframe est c' Hest).
Defined.

Lemma TestCoverPlayerActions_witness :
  exists path stats c',
    BestPath 7 covererActions newPlayerModelWithRawTransitions state0 6
    = Ok (path, Some stats, c') /\
    length path = 6%nat /\
    MaxIncrease stats = 4%Z /\
    MaxStep stats = 3%Z /\
    forall a, In a ["play"; "pause"; "nextsong"; "prevsong"]%string ->
              In a (ActionNames (take 4 path)).
Proof.
  apply (TestCoverPlayerActions (rt := exampleRuntime) 7). lia.
Defined.

Lemma Walker_Paths_vs_Model_Paths_witness :
  exists paths : list (Path PlayerState),
    Paths 3 newPlayerModelWithRawTransitions state0 2 = Ok paths /\
    (paths = [] <-> 2%Z = 0%Z \/ StepsFrom newPlayerModelWithRawTransitions state0 = []) /\
    Walker_Paths (rt := exampleRuntime) 3
      (NewWalker newPlayerModelWithRawTransitions) state0 2
    = Ok (if (length paths =? 0)%nat then [[]] else map (fmap Some) paths).
Proof.
  destruct (Walker_Paths_vs_Model_Paths (rt := exampleRuntime)
              newPlayerModelWithRawTransitions state0 2 3)
    as (paths & Hpaths & Hnil & Hfits & _).
  - unfold maxInt. lia.
  - simpl. lia.
  - exists paths. split; [exact Hpaths|]. split; [exact Hnil|].
    apply Hfits. vm_compute. discriminate.
Defined.

(** * Further properties of the package *)

Section MoreProperties.
Context {State : Type} {stringer : Stringer State} {rt : GoRuntime}.
Local Abbreviation Step := (Step State) (only parsing).
Local Abbreviation Path := (Path State) (only parsing).
Local Abbreviation Model := (Model State) (only parsing).
Local Abbreviation Walker := (Walker State) (only parsing).
Local Abbreviation PathBuf := (PathBuf State) (only parsing).
Local Abbreviation Coverer := (Coverer State) (only parsing).

(** Case analysis on the integer comparisons of the goal. *)
Ltac compare_all :=
  repeat match goal with
         | |- context [(?x <? ?y)%Z] => destruct (Z.ltb_spec x y)
         | |- context [(?x >? ?y)%Z] => destruct (Z.gtb_spec x y)
         | |- context [(?x >=? ?y)%Z] => destruct (Z.geb_spec x y)
         | |- context [(?x =? ?y)%Z] => destruct (Z.eqb_spec x y)
         end.

(** ** model.go *)

(** X1. Registration order is the order of the steps: the steps of a
    model with one more generator are the steps it had, followed by
    the steps of the transitions of the new generator that apply, in
    the order the generator lists them; nothing is deduplicated. *)
Theorem StepsFrom_From (m : Model) (g : State -> list (Transition State)) (s : State) :
  StepsFrom (From m g) s
  = StepsFrom m s
    ++ omap (fun t => NewStep s (tr_action t) <$> tr_stateChange t s) (g s).
Proof.
  rewrite !StepsFrom_eq, !TransitionsFrom_eq. cbn [From gen].
  rewrite map_app, concat_app, omap_app. cbn [map concat].
  by rewrite app_nil_r.
Qed.

Lemma endOf_cons (s : State) (step : Step) (p : Path) :
  endOf s (step :: p) = endOf (EndState step) p.
Proof. done. Qed.

Lemma pathsN_maximal_run (m : Model) (n : nat) (s : State) (p : Path) :
  In p (pathsN m n s) <-> maximal_run m n s p.
Proof.
  revert s p. induction n as [|n IH]; intros s p.
  - split; [done|]. intros (Hne & _ & [Hlen|[Hlen _]]); [|lia].
    by apply nil_length_inv in Hlen.
  - cbn [pathsN]. rewrite in_concat. split.
    + intros (l & Hl & Hp). apply in_map_iff in Hl as (step & <- & Hstep).
      unfold extend in Hp.
      destruct (length (pathsN m n (EndState step)) =? 0)%nat eqn:Hempty.
      * apply Nat.eqb_eq, nil_length_inv, pathsN_nil in Hempty.
        destruct Hp as [<-|[]]. split; [done|]. split.
        -- apply run_cons; [done|apply run_nil].
        -- cbn. destruct Hempty as [->|Hdead]; [by left|].
           destruct n; [by left|right]. split; [lia|done].
      * apply in_map_iff in Hp as (cp & <- & Hcp).
        apply IH in Hcp as (Hne & Hrun & Hlen). split; [done|]. split.
        -- by apply run_cons.
        -- rewrite endOf_cons. cbn [length].
           destruct Hlen as [Hlen|[Hlen Hdead]]; [left; lia|right].
           split; [lia|done].
    + intros (Hne & Hrun & Hlen).
      destruct p as [|step cp]; [done|]. inversion Hrun as [|? ? ? Hstep Hcp]; subst.
      exists (extend step (pathsN m n (EndState step))). split.
      * apply in_map_iff. by exists step.
      * rewrite endOf_cons in Hlen. cbn [length] in Hlen. unfold extend.
        destruct cp as [|step' cp].
        -- assert (Hnil : pathsN m n (EndState step) = []).
           { apply pathsN_nil. simpl in Hlen.
             destruct Hlen as [Hlen|[_ Hdead]]; [left; lia|by right]. }
           rewrite Hnil. by left.
        -- assert (Hcp' : In (step' :: cp) (pathsN m n (EndState step))).
           { apply IH. split; [done|]. split; [done|].
             destruct Hlen as [Hlen|[Hlen Hdead]]; [left|right].
             - cbn [length] in *. lia.
             - split; [cbn [length] in *; lia|done]. }
           destruct (pathsN m n (EndState step)) as [|q qs] eqn:Hq; [done|].
           cbn [length Nat.eqb]. apply in_map_iff. by exists (step' :: cp).
Qed.

(** X2. For a depth that is a non-negative [int], [Model.Paths]
    returns exactly the walks of the model from the state that have
    at least one step and either have as many steps as the depth or
    have fewer and end where the model offers no step. *)
Theorem Paths_maximal_runs (fuel : nat) (m : Model) (s : State) (maxLen : Z) :
  (0 <= maxLen <= maxInt)%Z -> (Z.to_nat maxLen < fuel)%nat ->
  exists paths : list Path,
    Paths fuel m s maxLen = Ok paths /\
    forall p : Path, In p paths <-> maximal_run m (Z.to_nat maxLen) s p.
Proof.
  intros Hmax Hfuel. exists (pathsN m (Z.to_nat maxLen) s).
  split; [by apply Paths_pathsN|]. intros p. apply pathsN_maximal_run.
Qed.

(** ** walk.go *)

Lemma walk_length (w : Walker) (n : nat) (s : State) :
  Forall (fun p => (length p <= n)%nat) (walk w n s).
Proof.
  revert s. induction n as [|n IH]; intros s; cbn [walk].
  - apply Forall_singleton. simpl. lia.
  - destruct (length (nextStepsOf w s) =? 0)%nat.
    + apply Forall_singleton. simpl. lia.
    + apply Forall_concat, Forall_fmap, Forall_forall. intros step _.
      simpl. apply Forall_fmap. eapply Forall_impl; [apply IH|].
      intros p Hp. unfold compose. cbn [length]. simpl in Hp. lia.
Qed.

(** X3. The lazy and the eager enumeration agree, whatever the step
    filter: for a depth that is a non-negative [int] within what
    [make] allocates, [Walker.Paths] returns a list of paths of at
    most [maxLen] steps, none of them holding a nil step, and
    [Walker.IterPaths] hands exactly these paths to its consumer, in
    this order, as long as the consumer asks for more; once the
    consumer declines, nothing further is yielded. *)
Theorem IterPaths_yields_Paths (fuel : nat) (w : Walker) (s : State) (maxLen : Z) :
  (0 <= maxLen <= maxInt)%Z -> (maxLen <= makeslice_max)%Z ->
  (Z.to_nat maxLen < fuel)%nat ->
  exists paths : list Path,
    Walker_Paths fuel w s maxLen = Ok (map (fmap Some) paths) /\
    Forall (fun p => (Z.of_nat (length p) <= maxLen)%Z) paths /\
    forall (A : Type) (yield : A -> PathBuf -> A * bool) (a : A),
      IterPaths yield fuel w s maxLen a
      = Ok (fst (feed yield a (map (fmap Some) paths))).
Proof.
  intros Hmax Hmake Hfuel. exists (walk w (Z.to_nat maxLen) s).
  split; [by apply Walker_Paths_walk|]. split.
  - eapply Forall_impl; [apply walk_length|]. intros p Hp. simpl in Hp. lia.
  - intros A yield a. by apply IterPaths_feed.
Qed.

(** ** cover.go: shuffling and the scan of BestPath *)

Lemma insert_exchange {B : Type} (l : list B) (j : nat) (y a : B) :
  l !! j = Some y -> y :: <[j := a]> l ≡ₚ a :: l.
Proof.
  revert j. induction l as [|b l IH]; intros [|j] Hj; simplify_eq/=.
  - apply Permutation_swap.
  - rewrite Permutation_swap, (IH j Hj). apply Permutation_swap.
Qed.

Lemma insert_swap_Permutation {B : Type} (l : list B) (i j : nat) (x y : B) :
  l !! i = Some x -> l !! j = Some y -> <[j := x]> (<[i := y]> l) ≡ₚ l.
Proof.
  revert i j. induction l as [|a l IH]; intros [|i] [|j] Hi Hj; simplify_eq/=.
  - done.
  - by apply insert_exchange.
  - by apply insert_exchange.
  - by rewrite (IH i j).
Qed.

Lemma swap_Permutation (paths paths' : list Path) (i j : Z) :
  swap paths i j = Ok paths' -> paths' ≡ₚ paths.
Proof.
  unfold swap. destruct ((i <? 0) || (j <? 0))%Z; [done|].
  destruct (paths !! Z.to_nat i) as [pi|] eqn:Hi; [|done].
  destruct (paths !! Z.to_nat j) as [pj|] eqn:Hj; [|done].
  intros [= <-]. by apply insert_swap_Permutation.
Qed.

Lemma swaps_Permutation (paths paths' : list Path) (calls : list (Z * Z)) :
  swaps paths calls = Ok paths' -> paths' ≡ₚ paths.
Proof.
  revert paths. induction calls as [|[i j] calls IH]; intros paths; cbn [swaps].
  - by intros [= <-].
  - destruct (swap paths i j) as [paths1| |] eqn:Hswap; cbn; [|done..].
    intros Hrest. apply IH in Hrest. apply swap_Permutation in Hswap.
    by rewrite Hrest.
Qed.

(** X4. [ShufflePaths] only reorders: with a generator whose [Shuffle]
    keeps to its contract it returns, the shuffled candidates are a
    permutation of the candidates, and of the Coverer only the
    generator has changed; without a generator the candidates and the
    Coverer are left as they are. *)
Theorem ShufflePaths_permutes `{!ShuffleInRange rt} (c : Coverer) (paths : list Path) :
  exists paths' c',
    ShufflePaths c paths = Ok (paths', c') /\
    paths' ≡ₚ paths /\
    coveredPath c' = coveredPath c /\ coverCount c' = coverCount c /\
    covFuncs c' = covFuncs c /\ historyLen c' = historyLen c /\
    randomness c' = randomness c /\
    (rand c = None -> paths' = paths /\ c' = c).
Proof.
  destruct (ShufflePaths_Ok c paths)
    as (paths' & c' & Hsh & _ & Hcp & Hcount & Hfuncs & Hh & Hr).
  exists paths', c'. split; [done|]. split; [|split; [done|]].
  - unfold ShufflePaths in Hsh. destruct (rand c) as [r|].
    + destruct (rand_Shuffle r _) as [calls r'].
      destruct (swaps paths calls) as [paths1| |] eqn:Hswaps; cbn in Hsh; [|done..].
      injection Hsh as <- <-. by apply swaps_Permutation in Hswaps.
    + by injection Hsh as <- <-.
  - do 4 (split; [done|]). intros Hnone. unfold ShufflePaths in Hsh.
    rewrite Hnone in Hsh. by injection Hsh as <- <-.
Qed.

Lemma ShufflePaths_inv (c c' : Coverer) (paths paths' : list Path) :
  ShufflePaths c paths = Ok (paths', c') ->
  paths' ≡ₚ paths /\
  coveredPath c' = coveredPath c /\ coverCount c' = coverCount c /\
  covFuncs c' = covFuncs c /\ historyLen c' = historyLen c /\
  randomness c' = randomness c.
Proof.
  unfold ShufflePaths. destruct (rand c) as [r|]; [|by intros [= <- <-]].
  destruct (rand_Shuffle r _) as [calls r'].
  destruct (swaps paths calls) as [paths1| |] eqn:Hswaps; cbn; [|done..].
  intros [= <- <-]. by apply swaps_Permutation in Hswaps.
Qed.

(** The candidates as [BestPath] scans them, and the Coverer it scans
    them with. *)
Lemma BestPath_order (c c1 : Coverer) (paths paths1 : list Path) :
  (if negb (randomness c =? BestPathRandomNone)%Z
   then ShufflePaths c paths else Ok (paths, c)) = Ok (paths1, c1) ->
  paths1 ≡ₚ paths /\
  coveredPath c1 = coveredPath c /\ coverCount c1 = coverCount c /\
  covFuncs c1 = covFuncs c /\ historyLen c1 = historyLen c /\
  randomness c1 = randomness c /\
  (randomness c = BestPathRandomNone -> paths1 = paths /\ c1 = c).
Proof.
  destruct (Z.eqb_spec (randomness c) BestPathRandomNone) as [Hnone|Hrnd]; cbn [negb].
  - intros [= <- <-]. done.
  - intros Hsh. apply ShufflePaths_inv in Hsh as (? & ? & ? & ? & ? & ?). done.
Qed.

(** X5. [BestPath] does not touch what the Coverer has covered: when it
    returns, the covered path and its capacity, the histogram, the
    coverage functions, the history length and the randomness mode are
    as before, and so is the generator when the mode is "none". *)
Theorem BestPath_frame (fuel : nat) (c c' : Coverer) (m : Model) (s : State)
    (maxLen : Z) (r : Path * option CoverageIncreaseStats) :
  (0 <= historyLen c)%Z ->
  BestPath fuel c m s maxLen = Ok (r, c') ->
  elems (coveredPath c') = elems (coveredPath c) /\
  cap (coveredPath c') = cap (coveredPath c) /\
  coverCount c' = coverCount c /\ covFuncs c' = covFuncs c /\
  historyLen c' = historyLen c /\ randomness c' = randomness c /\
  (randomness c = BestPathRandomNone -> rand c' = rand c).
Proof.
  intros Hh. unfold BestPath.
  destruct (Paths fuel m s maxLen) as [paths| |]; [|done..].
  cbn [mbind result_bind]. unfold BestPath_among.
  destruct (if negb (randomness c =? BestPathRandomNone)%Z
            then ShufflePaths c paths else Ok (paths, c))
    as [[paths1 c1]| |] eqn:Hsh; [|done..].
  apply BestPath_order in Hsh as (_ & Hcp & Hcount & Hfuncs & Hhl & Hrnd & Hnone).
  cbn [mbind result_bind].
  assert (Hh1 : (0 <= historyLen c1)%Z) by (by rewrite Hhl).
  destruct (BestPath_loop_sound c1 paths1 Hh1 c1 [] None (same_view_refl c1))
    as (bestPath & best & c2 & Hloop & Hview & _).
  rewrite Hloop. cbn [mbind result_bind].
  destruct Hview as (Helems & Hcap & Hcount2 & Hfuncs2 & Hh2 & Hrand2 & Hrnd2).
  destruct (length bestPath =? 0)%nat; intros [= <- <-];
    rewrite Helems, Hcap, Hcount2, Hfuncs2, Hh2, Hrnd2, Hcp;
    (do 6 (split; [done|])); intros Hn; destruct (Hnone Hn) as [_ ->];
    exact Hrand2.
Qed.

Lemma BestPath_loop_step (c c1 : Coverer) (path : Path) (paths : list Path)
    (bestPath : Path) (best : option CoverageIncreaseStats) :
  (0 <= historyLen c)%Z -> same_view c c1 ->
  exists c1', same_view c c1' /\
    BestPath_loop c1 (path :: paths) bestPath best
    = (let est := statsOf c path in
       if (MaxIncrease est =? 0)%Z then BestPath_loop c1' paths bestPath best
       else
         match best with
         | None =>
             if (randomness c >=? BestPathRandomAmongAnyPath)%Z
             then Ok (path, Some est, c1')
             else BestPath_loop c1' paths path (Some est)
         | Some b =>
             if (MaxIncrease est <? MaxIncrease b)%Z
             then BestPath_loop c1' paths bestPath best
             else if (MaxIncrease est >? MaxIncrease b)%Z
             then BestPath_loop c1' paths path (Some est)
             else if (randomness c =? BestPathRandomAmongMaxCoverageIncrease)%Z
             then BestPath_loop c1' paths bestPath best
             else if (MaxStep est >? MaxStep b)%Z
             then BestPath_loop c1' paths bestPath best
             else if (MaxStep est <? MaxStep b)%Z
             then BestPath_loop c1' paths path (Some est)
             else if (randomness c =? BestPathRandomAmongFastestMaxCoverageIncrease)%Z
             then BestPath_loop c1' paths bestPath best
             else if (FirstStep est >? FirstStep b)%Z
             then BestPath_loop c1' paths bestPath best
             else if (FirstStep est <? FirstStep b)%Z
             then BestPath_loop c1' paths path (Some est)
             else if (FirstIncrease est <? FirstIncrease b)%Z
             then BestPath_loop c1' paths bestPath best
             else if (FirstIncrease est >? FirstIncrease b)%Z
             then BestPath_loop c1' paths path (Some est)
             else BestPath_loop c1' paths bestPath best
         end).
Proof.
  intros Hh Hview. cbn [BestPath_loop].
  assert (Hh1 : (0 <= historyLen c1)%Z)
    by (by rewrite (same_view_historyLen c c1)).
  destruct (EstimateCoverageIncrease_Ok c1 path Hh1) as (c1' & Hest & Hview1).
  pose proof (same_view_trans _ _ _ Hview Hview1) as Hview'.
  exists c1'. split; [done|].
  rewrite Hest. cbn [mbind result_bind].
  rewrite (statsOf_same_view c c1) by done.
  assert (Hr : randomness c1' = randomness c)
    by (by destruct Hview' as (_ & _ & _ & _ & _ & _ & ->)).
  by rewrite Hr.
Qed.

(** In every mode below "any path" the scan ends with statistics whose
    [MaxIncrease] is at least that of the best it started from and of
    every candidate it scanned. *)
Lemma BestPath_loop_maximal (c : Coverer) (paths : list Path) :
  (0 <= historyLen c)%Z -> (randomness c < BestPathRandomAmongAnyPath)%Z ->
  forall (c1 : Coverer) (bestPath : Path) (best : option CoverageIncreaseStats)
         (bestPath' : Path) (best' : option CoverageIncreaseStats) (c2 : Coverer),
    same_view c c1 ->
    BestPath_loop c1 paths bestPath best = Ok (bestPath', best', c2) ->
    (forall e, best = Some e ->
       exists e', best' = Some e' /\ (MaxIncrease e <= MaxIncrease e')%Z) /\
    (forall p, In p paths -> MaxIncrease (statsOf c p) <> 0%Z ->
       exists e', best' = Some e' /\
                  (MaxIncrease (statsOf c p) <= MaxIncrease e')%Z).
Proof.
  intros Hh Hmode.
  induction paths as [|path paths IH];
    intros c1 bestPath best bestPath' best' c2 Hview.
  - cbn. intros [= <- <- <-]. split; [|done]. intros e ->. exists e. split; [done|lia].
  - destruct (BestPath_loop_step c c1 path paths bestPath best Hh Hview)
      as (c1' & Hview' & ->).
    cbn zeta. set (est := statsOf c path).
    assert (Hkeep :
      (MaxIncrease est = 0%Z \/
       exists b, best = Some b /\ (MaxIncrease est <= MaxIncrease b)%Z) ->
      BestPath_loop c1' paths bestPath best = Ok (bestPath', best', c2) ->
      (forall e, best = Some e ->
         exists e', best' = Some e' /\ (MaxIncrease e <= MaxIncrease e')%Z) /\
      (forall p, In p (path :: paths) -> MaxIncrease (statsOf c p) <> 0%Z ->
         exists e', best' = Some e' /\
                    (MaxIncrease (statsOf c p) <= MaxIncrease e')%Z)).
    { intros Hcase Hloop.
      destruct (IH c1' bestPath best bestPath' best' c2 Hview' Hloop) as [Hb Hp].
      split; [done|]. intros p [<-|Hin] Hnz; [|by apply Hp].
      destruct Hcase as [Hz|(b & Hbest & Hle)]; [done|].
      destruct (Hb b Hbest) as (e' & He' & Hle'). exists e'. split; [done|].
      fold est. lia. }
    assert (Htake :
      (forall b, best = Some b -> (MaxIncrease b <= MaxIncrease est)%Z) ->
      BestPath_loop c1' paths path (Some est) = Ok (bestPath', best', c2) ->
      (forall e, best = Some e ->
         exists e', best' = Some e' /\ (MaxIncrease e <= MaxIncrease e')%Z) /\
      (forall p, In p (path :: paths) -> MaxIncrease (statsOf c p) <> 0%Z ->
         exists e', best' = Some e' /\
                    (MaxIncrease (statsOf c p) <= MaxIncrease e')%Z)).
    { intros Hcase Hloop.
      destruct (IH c1' path (Some est) bestPath' best' c2 Hview' Hloop) as [Hb Hp].
      destruct (Hb est eq_refl) as (e' & He' & Hle'). split.
      - intros e Hbest. exists e'. split; [done|]. specialize (Hcase e Hbest). lia.
      - intros p [<-|Hin] Hnz; [|by apply Hp]. by exists e'. }
    destruct (Z.eqb_spec (MaxIncrease est) 0) as [Hz|Hnz]; [apply Hkeep; by left|].
    destruct best as [b|].
    + compare_all;
        first [ apply Hkeep; right; exists b; split; [done|lia]
              | apply Htake; intros b' [= <-]; lia ].
    + destruct (Z.geb_spec (randomness c) BestPathRandomAmongAnyPath); [lia|].
      by apply Htake.
Qed.

(** X6. In the modes "none", "among equally good", "among fastest max
    increase" and "among max increase" (and for any mode number below
    "any path"), the path [BestPath] returns has the largest estimated
    [MaxIncrease] of all the candidates [Model.Paths] returned. *)
Theorem BestPath_MaxIncrease_maximal (fuel : nat) (c c' : Coverer) (m : Model)
    (s : State) (maxLen : Z) (paths : list Path) (bestPath : Path)
    (best : option CoverageIncreaseStats) :
  (0 <= historyLen c)%Z -> (randomness c < BestPathRandomAmongAnyPath)%Z ->
  Paths fuel m s maxLen = Ok paths ->
  BestPath fuel c m s maxLen = Ok (bestPath, best, c') ->
  forall (p : Path) (est : CoverageIncreaseStats),
    In p paths -> estimated c p est -> MaxIncrease est <> 0%Z ->
    exists e, best = Some e /\ estimated c bestPath e /\
              (MaxIncrease est <= MaxIncrease e)%Z.
Proof.
  intros Hh Hmode Hpaths. unfold BestPath. rewrite Hpaths.
  cbn [mbind result_bind]. unfold BestPath_among.
  destruct (if negb (randomness c =? BestPathRandomNone)%Z
            then ShufflePaths c paths else Ok (paths, c))
    as [[paths1 c1]| |] eqn:Hsh; [|done..].
  apply BestPath_order in Hsh as (Hperm & Hcp & Hcount & Hfuncs & Hhl & Hrnd & _).
  cbn [mbind result_bind].
  assert (Hstats : forall q, statsOf c1 q = statsOf c q).
  { intros q. apply statsOf_ext; congruence. }
  assert (Hh1 : (0 <= historyLen c1)%Z) by (by rewrite Hhl).
  destruct (BestPath_loop_sound c1 paths1 Hh1 c1 [] None (same_view_refl c1))
    as (bp & b & c2 & Hloop & _ & Hres & _).
  rewrite Hloop. cbn [mbind result_bind].
  assert (Hmode1 : (randomness c1 < BestPathRandomAmongAnyPath)%Z) by (by rewrite Hrnd).
  destruct (BestPath_loop_maximal c1 paths1 Hh1 Hmode1 c1 [] None bp b c2
              (same_view_refl c1) Hloop) as [_ Hmax].
  intros Hret p est Hp Hest Hnz.
  apply estimated_statsOf in Hest as ->; [|done].
  destruct (Hmax p) as (e' & -> & Hle).
  { apply list_elem_of_In. rewrite Hperm. by apply list_elem_of_In. }
  { by rewrite Hstats. }
  rewrite Hstats in Hle.
  destruct Hres as [Heq|(Hbp & Hb & Hne)]; [discriminate Heq|].
  injection Hb as ->. rewrite Hstats in *.
  assert (Hnonempty : bp <> []).
  { apply (Paths_nonempty fuel m s maxLen paths); [done|].
    apply list_elem_of_In. rewrite <- Hperm. by apply list_elem_of_In. }
  destruct bp as [|step bp]; [done|]. cbn [length Nat.eqb] in Hret.
  injection Hret as <- <- <-. eexists. split; [done|].
  split; [by apply estimated_statsOf|done].
Qed.

Lemma BestPath_loop_first (c : Coverer) (paths : list Path) :
  (0 <= historyLen c)%Z -> (BestPathRandomAmongAnyPath <= randomness c)%Z ->
  forall c1 : Coverer,
    same_view c c1 ->
    exists bestPath best c2,
      BestPath_loop c1 paths [] None = Ok (bestPath, best, c2) /\
      match best with
      | None =>
          bestPath = [] /\
          forall q, In q paths -> MaxIncrease (statsOf c q) = 0%Z
      | Some e =>
          exists k : nat,
            paths !! k = Some bestPath /\ e = statsOf c bestPath /\
            MaxIncrease e <> 0%Z /\
            forall (j : nat) (q : Path),
              (j < k)%nat -> paths !! j = Some q ->
              MaxIncrease (statsOf c q) = 0%Z
      end.
Proof.
  intros Hh Hmode. induction paths as [|path paths IH]; intros c1 Hview.
  - exists [], None, c1. split; [done|]. split; [done|]. by intros q [].
  - destruct (BestPath_loop_step c c1 path paths [] None Hh Hview)
      as (c1' & Hview' & ->).
    cbn zeta. destruct (Z.eqb_spec (MaxIncrease (statsOf c path)) 0) as [Hz|Hnz].
    + destruct (IH c1' Hview') as (bp & b & c2 & Hloop & Hres).
      exists bp, b, c2. split; [done|]. destruct b as [e|].
      * destruct Hres as (k & Hk & He & Hne & Hbefore).
        exists (S k). split; [done|]. do 2 (split; [done|]).
        intros [|j] q Hj Hq; simplify_eq/=; [done|]. apply (Hbefore j); [lia|done].
      * destruct Hres as [-> Hall]. split; [done|].
        intros q [<-|Hq]; [done|by apply Hall].
    + destruct (Z.geb_spec (randomness c) BestPathRandomAmongAnyPath); [|lia].
      eexists _, _, _. split; [done|]. exists 0%nat. split; [done|].
      do 2 (split; [done|]). intros j q Hj. lia.
Qed.

(** X7. In the mode "any path" (and for any larger mode number)
    [BestPath] stops at the first candidate, in the shuffled order,
    whose estimated [MaxIncrease] is not zero, and returns it with its
    estimate; candidates after it are not compared. When no candidate
    raises coverage it returns [(nil, nil)]. *)
Theorem BestPath_any_path_first (fuel : nat) (c c1 : Coverer) (m : Model)
    (s : State) (maxLen : Z) (paths shuffled : list Path) :
  (0 <= historyLen c)%Z -> (BestPathRandomAmongAnyPath <= randomness c)%Z ->
  Paths fuel m s maxLen = Ok paths ->
  ShufflePaths c paths = Ok (shuffled, c1) ->
  exists bestPath best c',
    BestPath fuel c m s maxLen = Ok (bestPath, best, c') /\
    match best with
    | None =>
        bestPath = [] /\
        forall q est, In q paths -> estimated c q est -> MaxIncrease est = 0%Z
    | Some e =>
        exists k : nat,
          shuffled !! k = Some bestPath /\ estimated c bestPath e /\
          MaxIncrease e <> 0%Z /\
          forall (j : nat) (q : Path) (est : CoverageIncreaseStats),
            (j < k)%nat -> shuffled !! j = Some q -> estimated c q est ->
            MaxIncrease est = 0%Z
    end.
Proof.
  intros Hh Hmode Hpaths Hsh. unfold BestPath. rewrite Hpaths.
  cbn [mbind result_bind]. unfold BestPath_among.
  assert (Hnot : negb (randomness c =? BestPathRandomNone)%Z = true).
  { unfold BestPathRandomAmongAnyPath, BestPathRandomNone in *.
    destruct (Z.eqb_spec (randomness c) 0); [lia|done]. }
  rewrite Hnot, Hsh. cbn [mbind result_bind].
  apply ShufflePaths_inv in Hsh as (Hperm & Hcp & Hcount & Hfuncs & Hhl & Hrnd).
  assert (Hstats : forall q, statsOf c1 q = statsOf c q).
  { intros q. apply statsOf_ext; congruence. }
  assert (Hh1 : (0 <= historyLen c1)%Z) by (by rewrite Hhl).
  assert (Hmode1 : (BestPathRandomAmongAnyPath <= randomness c1)%Z) by (by rewrite Hrnd).
  destruct (BestPath_loop_first c1 shuffled Hh1 Hmode1 c1 (same_view_refl c1))
    as (bp & b & c2 & Hloop & Hres).
  rewrite Hloop. cbn [mbind result_bind]. destruct b as [e|].
  - destruct Hres as (k & Hk & He & Hne & Hbefore). rewrite Hstats in He.
    assert (Hnonempty : bp <> []).
    { apply (Paths_nonempty fuel m s maxLen paths); [done|].
      apply list_elem_of_In. rewrite <- Hperm. by eapply list_elem_of_lookup_2. }
    destruct bp as [|step bp]; [done|]. cbn [length Nat.eqb].
    eexists _, _, _. split; [done|]. exists k. split; [done|].
    split; [by apply estimated_statsOf|]. split; [done|].
    intros j q est Hj Hq Hest. apply estimated_statsOf in Hest as ->; [|done].
    rewrite <- Hstats. by apply (Hbefore j).
  - destruct Hres as [-> Hall]. cbn [length Nat.eqb].
    eexists _, _, _. split; [done|]. split; [done|].
    intros q est Hq Hest. apply estimated_statsOf in Hest as ->; [|done].
    rewrite <- Hstats. apply Hall.
    apply list_elem_of_In. rewrite Hperm. by apply list_elem_of_In.
Qed.

(** ** cover.go: the statistics of an estimate *)

Lemma newItems_prefix (c : Coverer) (pwh : Path) (n : nat) :
  Forall monotone (covFuncs c) ->
  newItems c (take n pwh) ⊆ newItems c pwh.
Proof.
  intros Hmono x. unfold newItems.
  rewrite !elem_of_list_to_set, !list_elem_of_In, !filter_In.
  intros [Hx Hnew]. split; [|done].
  rewrite <- (take_drop n pwh). by apply covFunc_monotone.
Qed.

Lemma estimateLoop_bounds (c : Coverer) (pwh : Path) (h : nat) :
  Forall monotone (covFuncs c) ->
  forall (n k : nat) (est : CoverageIncreaseStats) (first : gmap string Z),
    (h + k + n = length pwh)%nat ->
    MaxStep est = (-1)%Z ->
    MaxIncrease est = Z.of_nat (size (newItems c pwh)) ->
    dom first ⊆ newItems c pwh ->
    ((FirstStep est = (-1)%Z /\ FirstIncrease est = 0%Z /\ first = ∅) \/
     ((0 <= FirstStep est < Z.of_nat k)%Z /\
      (1 <= FirstIncrease est <= MaxIncrease est)%Z)) ->
    (0 < n)%nat ->
    let r := estimateLoop c pwh (Z.of_nat h) n (Z.of_nat (h + k)) est first in
    (Z.of_nat k <= MaxStep r < Z.of_nat (k + n))%Z /\
    (-1 <= FirstStep r <= MaxStep r)%Z /\
    (MaxIncrease r <> 0%Z ->
     (0 <= FirstStep r)%Z /\ (1 <= FirstIncrease r <= MaxIncrease r)%Z) /\
    (MaxIncrease r = 0%Z -> FirstStep r = (-1)%Z /\ FirstIncrease r = 0%Z).
Proof.
  intros Hmono. induction n as [|n IH]; intros k est first Hlen Hmax HM Hdom Hfirst Hn;
    [lia|].
  cbn [estimateLoop].
  set (first' := countNew c (covFunc c (take (Z.to_nat (Z.of_nat (h + k) + 1)) pwh))
                          first).
  assert (Hdom' : dom first' ⊆ newItems c pwh).
  { unfold first'. rewrite countNew_dom.
    pose proof (newItems_prefix c pwh (Z.to_nat (Z.of_nat (h + k) + 1)) Hmono).
    unfold newItems in *. set_solver. }
  assert (Hsize : (size first' <= size (newItems c pwh))%nat).
  { rewrite <- size_dom. by apply subseteq_size. }
  assert (Hlast : n = 0%nat -> size first' = size (newItems c pwh)).
  { intros ->. rewrite <- size_dom. f_equal.
    apply (anti_symm (⊆)); [done|].
    unfold first'. rewrite countNew_dom.
    replace (Z.to_nat (Z.of_nat (h + k) + 1)) with (length pwh) by lia.
    rewrite take_ge by lia. unfold newItems. set_solver. }
  set (est' := if ((FirstStep est =? -1) && (0 <? Z.of_nat (size first')))%Z
               then {| MaxStep := MaxStep est;
                       MaxIncrease := MaxIncrease est;
                       FirstStep := Z.of_nat (h + k) - Z.of_nat h;
                       FirstIncrease := Z.of_nat (size first') |}
               else est).
  assert (Hest' : MaxStep est' = (-1)%Z /\ MaxIncrease est' = MaxIncrease est /\
    ((FirstStep est' = (-1)%Z /\ FirstIncrease est' = 0%Z /\ first' = ∅) \/
     ((0 <= FirstStep est' < Z.of_nat (S k))%Z /\
      (1 <= FirstIncrease est' <= MaxIncrease est)%Z))).
  { unfold est'. destruct (Z.eqb_spec (FirstStep est) (-1)) as [Hm1|Hset];
      destruct (Z.ltb_spec 0 (Z.of_nat (size first'))) as [Hpos|Hzero]; cbn [andb].
    - cbn. split; [done|]. split; [done|]. right. lia.
    - split; [done|]. split; [done|]. left.
      destruct Hfirst as [(_ & ? & _)|[? _]]; [|lia].
      split; [done|]. split; [done|]. apply map_size_empty_iff. lia.
    - split; [done|]. split; [done|]. right.
      destruct Hfirst as [(? & _)|[? ?]]; [done|]. lia.
    - split; [done|]. split; [done|]. right.
      destruct Hfirst as [(? & _)|[? ?]]; [done|]. lia. }
  destruct Hest' as (Hmax' & HM' & Hfirst').
  fold est'. rewrite Hmax', HM', HM.
  change ((-1 =? -1)%Z) with true. cbn [andb].
  destruct (Z.eqb_spec (Z.of_nat (size first')) (Z.of_nat (size (newItems c pwh))))
    as [Heq|Hneq].
  - (* the maximum is reached at this step *)
    cbn [MaxStep MaxIncrease FirstStep FirstIncrease].
    split; [lia|]. split.
    + destruct Hfirst' as [(-> & _)|[? _]]; lia.
    + split.
      * intros Hnz. destruct Hfirst' as [(_ & _ & Hemp)|[? ?]]; [|lia].
        rewrite Hemp, map_size_empty in Heq. lia.
      * intros Hz. destruct Hfirst' as [(? & ? & _)|[_ ?]]; [done|lia].
  - assert (Hn' : (0 < n)%nat).
    { destruct n; [|lia]. specialize (Hlast eq_refl). lia. }
    replace (Z.of_nat (h + k) + 1)%Z with (Z.of_nat (h + S k)) by lia.
    destruct (IH (S k) est' first') as (Hr1 & Hr2 & Hr3 & Hr4); try done; try lia.
    destruct Hfirst' as [?|[? ?]]; [by left|right]. split; [lia|]. lia.
Qed.

Lemma statsOf_bounds (c : Coverer) (path : Path) :
  Forall monotone (covFuncs c) -> path <> [] ->
  let est := statsOf c path in
  (0 <= MaxStep est < Z.of_nat (length path))%Z /\
  (-1 <= FirstStep est <= MaxStep est)%Z /\
  (MaxIncrease est <> 0%Z ->
   (0 <= FirstStep est)%Z /\ (1 <= FirstIncrease est <= MaxIncrease est)%Z) /\
  (MaxIncrease est = 0%Z -> FirstStep est = (-1)%Z /\ FirstIncrease est = 0%Z).
Proof.
  intros Hmono Hne. unfold statsOf. rewrite <- (contextPrefix_length c).
  pose proof (estimateLoop_bounds c (contextPrefix c ++ path)
                (length (contextPrefix c)) Hmono (length path) 0%nat
                {| MaxStep := -1;
                   MaxIncrease :=
                     Z.of_nat (size (countNew c (covFunc c (contextPrefix c ++ path)) ∅));
                   FirstStep := -1;
                   FirstIncrease := 0 |}
                ∅) as Hb.
  rewrite Nat.add_0_r in Hb. cbn zeta in Hb. apply Hb.
  - rewrite length_app. lia.
  - done.
  - cbn. by rewrite countNew_size.
  - set_solver.
  - by left.
  - destruct path; [done|]. simpl. lia.
Qed.

(** X8. For a Coverer built by the exported methods and a candidate
    with at least one step, the statistics of
    [EstimateCoverageIncrease] are indices into the candidate:
    [MaxStep] is the index of one of its steps, [FirstStep] is -1 or an
    index not beyond [MaxStep]; when [MaxIncrease] is not zero
    [FirstStep] is an index and [FirstIncrease] lies between 1 and
    [MaxIncrease]; when it is zero [FirstStep] is -1 and
    [FirstIncrease] is 0. *)
Theorem EstimateCoverageIncrease_bounds (c c' : Coverer) (path : Path)
    (est : CoverageIncreaseStats) :
  reachable c -> path <> [] ->
  EstimateCoverageIncrease c path = Ok (est, c') ->
  (0 <= MaxStep est < Z.of_nat (length path))%Z /\
  (-1 <= FirstStep est <= MaxStep est)%Z /\
  (MaxIncrease est <> 0%Z ->
   (0 <= FirstStep est)%Z /\ (1 <= FirstIncrease est <= MaxIncrease est)%Z) /\
  (MaxIncrease est = 0%Z -> FirstStep est = (-1)%Z /\ FirstIncrease est = 0%Z).
Proof.
  intros Hreach Hne Hest. apply reachable_inv in Hreach as (_ & Hmono & _).
  apply EstimateCoverageIncrease_inv in Hest as (_ & -> & _).
  by apply statsOf_bounds.
Qed.

Lemma BestPath_inv (fuel : nat) (c c' : Coverer) (m : Model) (s : State)
    (maxLen : Z) (bestPath : Path) (est : CoverageIncreaseStats) :
  (0 <= historyLen c)%Z ->
  BestPath fuel c m s maxLen = Ok (bestPath, Some est, c') ->
  bestPath <> [] /\ est = statsOf c bestPath /\ MaxIncrease est <> 0%Z.
Proof.
  intros Hh. unfold BestPath.
  destruct (Paths fuel m s maxLen) as [paths| |] eqn:Hpaths; [|done..].
  cbn [mbind result_bind]. unfold BestPath_among.
  destruct (if negb (randomness c =? BestPathRandomNone)%Z
            then ShufflePaths c paths else Ok (paths, c))
    as [[paths1 c1]| |] eqn:Hsh; [|done..].
  apply BestPath_order in Hsh as (Hperm & Hcp & Hcount & Hfuncs & Hhl & Hrnd & _).
  cbn [mbind result_bind].
  assert (Hstats : forall q, statsOf c1 q = statsOf c q).
  { intros q. apply statsOf_ext; congruence. }
  assert (Hh1 : (0 <= historyLen c1)%Z) by (by rewrite Hhl).
  destruct (BestPath_loop_sound c1 paths1 Hh1 c1 [] None (same_view_refl c1))
    as (bp & b & c2 & Hloop & _ & Hres & _).
  rewrite Hloop. cbn [mbind result_bind].
  destruct Hres as [[= -> ->]|(Hbp & -> & Hne)]; [done|].
  rewrite Hstats in *.
  destruct bp as [|step bp]; [done|]. cbn [length Nat.eqb].
  intros [= <- <- <-]. done.
Qed.

(** X9. The statistics [BestPath] returns for a Coverer built by the
    exported methods can be used as the documented test loop uses
    them: [FirstStep] and [MaxStep] are indices of steps of the
    returned path, with [FirstStep] not beyond [MaxStep], so that
    [path[:stats.FirstStep+1]] and [path[:stats.MaxStep+1]] are
    non-empty prefixes of the path; and [FirstIncrease] lies between 1
    and [MaxIncrease]. *)
Theorem BestPath_stats_in_range (fuel : nat) (c c' : Coverer) (m : Model)
    (s : State) (maxLen : Z) (bestPath : Path) (est : CoverageIncreaseStats) :
  reachable c ->
  BestPath fuel c m s maxLen = Ok (bestPath, Some est, c') ->
  (0 <= FirstStep est <= MaxStep est)%Z /\
  (MaxStep est < Z.of_nat (length bestPath))%Z /\
  (1 <= FirstIncrease est <= MaxIncrease est)%Z.
Proof.
  intros Hreach Hbest. apply reachable_inv in Hreach as (Hh & Hmono & _).
  apply BestPath_inv in Hbest as (Hne & -> & Hnz); [|done].
  destruct (statsOf_bounds c bestPath Hmono Hne) as (H1 & H2 & H3 & _).
  specialize (H3 Hnz). lia.
Qed.

(** ** cover.go: the histogram *)

Lemma count_incr (m : gmap string Z) (s x : string) :
  count (incr m s) x = if decide (s = x) then int_add (count m s) 1 else count m x.
Proof.
  unfold incr, count at 1. rewrite lookup_insert. by destruct (decide (s = x)).
Qed.

Lemma incr_fold_count (items : list string) (m : gmap string Z) (B : Z) :
  (forall y, 0 <= count m y <= B)%Z ->
  (B + Z.of_nat (length items) <= maxInt)%Z ->
  forall x, count (fold_left incr items m) x
            = (count m x + Z.of_nat (occurrences x items))%Z.
Proof.
  unfold maxInt, occurrences. revert m B.
  induction items as [|s items IH]; intros m B Hm HB x; cbn [fold_left count_occ].
  - lia.
  - assert (Hs : int_add (count m s) 1 = (count m s + 1)%Z).
    { pose proof (Hm s). cbn [length] in HB. apply int_wrap_small. lia. }
    rewrite (IH (incr m s) (B + 1)%Z).
    + rewrite count_incr, Hs.
      destruct (decide (s = x)) as [->|Hne]; destruct (string_dec _ _); try done; lia.
    + intros y. rewrite count_incr, Hs. pose proof (Hm s). pose proof (Hm y).
      destruct (decide (s = y)); lia.
    + cbn [length] in HB. lia.
Qed.

(** X10. [UpdateCoverage] computes the histogram of the coverage items
    of the covered path: as long as there are no more items than an
    [int] can count, the count of an item is the number of times the
    coverage functions produce it, 0 for an item they do not produce;
    whatever the histogram held before is forgotten. *)
Theorem UpdateCoverage_histogram (c : Coverer) (x : string) :
  (Z.of_nat (length (covFunc c (elems (coveredPath c)))) <= maxInt)%Z ->
  count (coverCount (UpdateCoverage c)) x
  = Z.of_nat (occurrences x (covFunc c (elems (coveredPath c)))).
Proof.
  intros Hlen. cbn [UpdateCoverage coverCount].
  rewrite (incr_fold_count _ ∅ 0%Z); [done| |lia].
  intros y. unfold count. rewrite lookup_empty. cbn. lia.
Qed.

(** X11. After [UpdateCoverage], [Coverage()] is the number of distinct
    coverage items of the covered path, and an item is a key of the
    histogram exactly when the coverage functions produce it; a second
    [UpdateCoverage] right after changes nothing. *)
Theorem UpdateCoverage_distinct (c : Coverer) :
  Coverage (UpdateCoverage c)
  = Z.of_nat (size (list_to_set (covFunc c (elems (coveredPath c))) : gset string)) /\
  (forall x, is_Some (coverCount (UpdateCoverage c) !! x)
             <-> In x (covFunc c (elems (coveredPath c)))) /\
  UpdateCoverage (UpdateCoverage c) = UpdateCoverage c.
Proof.
  split; [|split].
  - unfold Coverage. by rewrite <- size_dom, UpdateCoverage_dom.
  - intros x. rewrite <- elem_of_dom, UpdateCoverage_dom, elem_of_list_to_set.
    apply list_elem_of_In.
  - done.
Qed.

(** ** cover.go: the history window *)

Lemma appending_local (f : Path -> list string) :
  (forall p q, f (p ++ q) = f p ++ f q) ->
  suffix_closed f /\ forall h : nat, windowed h f.
Proof.
  intros Happ. split.
  - intros p q x _ Hx. rewrite Happ. apply in_or_app. by right.
  - intros h cp path x. rewrite !Happ. intros Hx.
    apply in_app_or in Hx as [Hx|Hx]; [by left|right].
    apply in_or_app. by right.
Qed.

Lemma StateStrings_In (path : Path) (x : string) :
  In x (StateStrings path) <->
  (exists step0, head path = Some step0 /\ x = StateString (start step0)) \/
  In x (map (fun step => StateString (end_ step)) path).
Proof.
  rewrite StateStrings_eq. destruct path as [|step0 path].
  - split; [done|]. by intros [(? & ? & _)|?].
  - split.
    + intros [<-|Hx]; [left; by exists step0|by right].
    + intros [(? & [= <-] & ->)|Hx]; [by left|by right].
Qed.

Lemma StateStrings_local :
  suffix_closed (State := State) StateStrings /\
  forall h : nat, windowed (State := State) h StateStrings.
Proof.
  split.
  - intros p q x Hch. rewrite !StateStrings_In, !map_app.
    intros [(b & Hb & ->)|Hx]; [|right; apply in_or_app; by right].
    destruct p as [|a p _] using rev_ind; [left; by exists b|].
    right. apply in_or_app. left. rewrite map_app. apply in_or_app. right. left.
    destruct q as [|b' q]; simplify_eq/=.
    apply (Hch (length p) a b).
    + rewrite <- app_assoc. cbn [app]. by apply list_lookup_middle.
    + apply list_lookup_middle. rewrite length_app. simpl. lia.
  - intros h cp path x. rewrite !StateStrings_In, !map_app.
    intros [(s0 & Hs0 & ->)|Hx].
    + destruct cp as [|a cp].
      * right. left. exists s0. unfold lastn. by rewrite drop_nil.
      * left. left. exists s0. by simplify_eq/=.
    + apply in_app_or in Hx as [Hx|Hx]; [left; by right|right].
      right. apply in_or_app. by right.
Qed.

Lemma combinations_In (items : Path -> list string) (sep : string)
    (combLenMax : Z) (path : Path) (x : string) :
  In x (combinations items sep combLenMax path) <->
  exists combLen first : nat,
    (1 <= combLen <= Z.to_nat combLenMax)%nat /\
    (first + combLen <= length path)%nat /\
    x = Join (items (take combLen (drop first path))) sep.
Proof.
  rewrite combinations_eq, in_concat. split.
  - intros (l & Hl & Hx). apply in_map_iff in Hl as (combLen & <- & HcombLen).
    apply in_map_iff in Hx as (first & <- & Hfirst).
    apply in_seq in HcombLen, Hfirst. exists combLen, first.
    split; [lia|]. split; [lia|done].
  - intros (combLen & first & HcombLen & Hfirst & ->). eexists. split.
    + apply in_map_iff. exists combLen. split; [reflexivity|]. apply in_seq. lia.
    + apply in_map_iff. exists first. split; [done|]. apply in_seq. lia.
Qed.

Lemma combinations_local (items : Path -> list string) (sep : string)
    (combLenMax : Z) :
  suffix_closed (combinations items sep combLenMax) /\
  forall h : nat, (Z.to_nat combLenMax <= h)%nat ->
                  windowed h (combinations items sep combLenMax).
Proof.
  split.
  - intros p q x _. rewrite !combinations_In.
    intros (combLen & first & HcombLen & Hfirst & ->).
    exists combLen, (length p + first)%nat. split; [done|]. split.
    + rewrite length_app. lia.
    + by rewrite drop_app_add.
  - intros h Hh cp path x. rewrite !combinations_In.
    intros (combLen & first & HcombLen & Hfirst & ->).
    destruct (decide (first + combLen <= length cp)%nat) as [Hin|Hout].
    + left. exists combLen, first. split; [done|]. split; [done|].
      rewrite drop_app_le by lia. rewrite take_app_le; [done|].
      rewrite length_drop. lia.
    + right. unfold lastn. set (d := (length cp - h)%nat).
      exists combLen, (first - d)%nat. split; [done|]. split.
      * rewrite length_app in *. rewrite length_drop. lia.
      * replace (drop d cp ++ path) with (drop d (cp ++ path))
          by (rewrite drop_app_le; [done|lia]).
        rewrite drop_drop. subst d.
        by replace (length cp - h + (first - (length cp - h)))%nat with first by lia.
Qed.

Lemma contextPrefix_lastn (c : Coverer) :
  contextPrefix c = lastn (Z.to_nat (historyLen c)) (elems (coveredPath c)).
Proof. unfold contextPrefix, lastn, len. f_equal. lia. Qed.

Lemma addCovFunc_local (c : Coverer) (f : Path -> list string) (k : nat) :
  monotone f -> suffix_closed f -> (Z.of_nat k <= historyLen c)%Z ->
  (forall h : nat, (k <= h)%nat -> windowed h f) ->
  cover_local c -> cover_local (addCovFunc c f).
Proof.
  intros Hmono Hsuf Hk Hwin Hc. unfold cover_local in *. cbn.
  apply Forall_app. split; [done|]. apply Forall_singleton.
  split; [done|]. split; [done|]. by exists k.
Qed.

Lemma setHistoryLen_local (c : Coverer) (combLenMax : Z) :
  cover_local c ->
  cover_local (setHistoryLen c combLenMax) /\
  (combLenMax <= historyLen (setHistoryLen c combLenMax))%Z /\
  (historyLen c <= historyLen (setHistoryLen c combLenMax))%Z.
Proof.
  intros Hc. unfold setHistoryLen.
  destruct (Z.ltb_spec (historyLen c) combLenMax) as [Hlt|Hge].
  - split; [|cbn; lia]. unfold cover_local in *. cbn.
    eapply Forall_impl; [exact Hc|]. intros f (? & ? & k & Hk & ?).
    split; [done|]. split; [done|]. exists k. split; [lia|done].
  - split; [done|]. lia.
Qed.

Lemma cover_local_ext (c c' : Coverer) :
  covFuncs c' = covFuncs c -> historyLen c' = historyLen c ->
  cover_local c -> cover_local c'.
Proof. unfold cover_local. by intros -> ->. Qed.

Lemma combinations_registered (c : Coverer) (items : Path -> list string)
    (sep : string) (combLenMax : Z) :
  cover_inv c -> cover_local c ->
  cover_local (addCovFunc (setHistoryLen c combLenMax)
                          (combinations items sep combLenMax)).
Proof.
  intros (Hh & _) Hc.
  destruct (setHistoryLen_local c combLenMax Hc) as (Hc' & Hle & Hle0).
  destruct (combinations_local items sep combLenMax) as [Hsuf Hwin].
  apply (addCovFunc_local _ _ (Z.to_nat combLenMax)); try done.
  - apply combinations_monotone.
  - lia.
Qed.

Lemma reachable_local (c : Coverer) : reachable c -> cover_local c.
Proof.
  induction 1 as [|c Hr IH|c Hr IH|c n Hr IH _|c n Hr IH _|c Hr IH|c Hr IH|c n Hr IH _
                  |c _ IH|c steps _ IH|c seed rnd _ IH|c path est c' _ IH Hest
                  |c fuel m s maxLen r c' Hr IH Hbest].
  - by apply Forall_nil.
  - destruct (appending_local (ActionNames (State := State))) as [Hsuf Hwin].
    { intros p q. by rewrite !ActionNames_eq, map_app. }
    apply (addCovFunc_local _ _ 0%nat); try done.
    + apply ActionNames_monotone.
    + by apply reachable_inv in Hr as (? & _).
  - destruct (appending_local (ActionFormats (State := State))) as [Hsuf Hwin].
    { intros p q. by rewrite !ActionFormats_eq, map_app. }
    apply (addCovFunc_local _ _ 0%nat); try done.
    + apply ActionFormats_monotone.
    + by apply reachable_inv in Hr as (? & _).
  - apply combinations_registered; [by apply reachable_inv|done].
  - apply combinations_registered; [by apply reachable_inv|done].
  - destruct StateStrings_local as [Hsuf Hwin].
    apply (addCovFunc_local _ _ 0%nat); try done.
    + apply StateStrings_monotone.
    + by apply reachable_inv in Hr as (? & _).
  - destruct (appending_local (StateActionStrings (State := State))) as [Hsuf Hwin].
    { intros p q. by rewrite !StateActionStrings_eq, map_app. }
    apply (addCovFunc_local _ _ 0%nat); try done.
    + apply StateActionStrings_monotone.
    + by apply reachable_inv in Hr as (? & _).
  - apply combinations_registered; [by apply reachable_inv|done].
  - done.
  - done.
  - done.
  - apply EstimateCoverageIncrease_inv in Hest as (_ & _ & Hview).
    destruct Hview as (_ & _ & _ & ? & ? & _). by apply (cover_local_ext c).
  - apply reachable_inv in Hr as (Hh & _).
    apply BestPath_fields in Hbest as (_ & _ & ? & ?); [|done].
    by apply (cover_local_ext c).
Qed.

Lemma covFunc_windowed (c : Coverer) (cp path : Path) (x : string) :
  cover_local c ->
  In x (covFunc c (cp ++ path)) ->
  In x (covFunc c cp) \/
  In x (covFunc c (lastn (Z.to_nat (historyLen c)) cp ++ path)).
Proof.
  intros Hlocal Hx. apply covFunc_In in Hx as (f & Hf & Hx).
  unfold cover_local in Hlocal. rewrite Forall_forall in Hlocal.
  destruct (Hlocal f) as (_ & _ & k & Hk & Hwin); [by apply list_elem_of_In|].
  destruct (Hwin (Z.to_nat (historyLen c)) ltac:(lia) cp path x Hx) as [Hl|Hr].
  - left. apply covFunc_In. eauto.
  - right. apply covFunc_In. eauto.
Qed.

Lemma covFunc_suffix (c : Coverer) (p q : Path) (x : string) :
  cover_local c -> chained (p ++ q) ->
  In x (covFunc c q) -> In x (covFunc c (p ++ q)).
Proof.
  intros Hlocal Hch Hx. apply covFunc_In in Hx as (f & Hf & Hx).
  unfold cover_local in Hlocal. rewrite Forall_forall in Hlocal.
  destruct (Hlocal f) as (_ & Hsuf & _); [by apply list_elem_of_In|].
  apply covFunc_In. exists f. split; [done|]. by apply Hsuf.
Qed.

Lemma up_to_date_isNew (c : Coverer) (x : string) :
  up_to_date c ->
  (Z.of_nat (length (covFunc c (elems (coveredPath c)))) <= maxInt)%Z ->
  isNew c x = true <-> ~ In x (covFunc c (elems (coveredPath c))).
Proof.
  intros Hup Hlen. unfold isNew. rewrite Hup. cbn [UpdateCoverage coverCount].
  rewrite (incr_fold_count _ ∅ 0%Z); [| |lia].
  - unfold count at 1. rewrite lookup_empty. cbn [default].
    rewrite Z.eqb_eq. unfold occurrences.
    rewrite (count_occ_not_In string_dec). lia.
  - intros y. unfold count. rewrite lookup_empty. cbn. lia.
Qed.

(** What [Coverage()] gains by a candidate, in terms of the statistics
    computed from the history window. *)
Lemma Coverage_gain (c : Coverer) (path : Path) :
  reachable c -> up_to_date c ->
  chained (elems (coveredPath c) ++ path) ->
  (Z.of_nat (length (covFunc c (elems (coveredPath c)))) <= maxInt)%Z ->
  Coverage (UpdateCoverage (MarkCovered c path))
  = (Coverage c + Z.of_nat (size (newItems c (contextPrefix c ++ path))))%Z.
Proof.
  intros Hreach Hup Hch Hlen.
  pose proof (reachable_local c Hreach) as Hlocal.
  apply reachable_inv in Hreach as (Hh & Hmono & _).
  unfold Coverage.
  rewrite <- !size_dom, UpdateCoverage_dom.
  cbn [MarkCovered coveredPath]. rewrite append_elems.
  replace (covFunc (MarkCovered c path)) with (covFunc c) by done.
  set (cp := elems (coveredPath c)) in *.
  assert (Hdom : dom (coverCount c) = list_to_set (covFunc c cp)).
  { rewrite Hup. apply UpdateCoverage_dom. }
  rewrite Hdom.
  assert (Hsplit : (list_to_set (covFunc c (cp ++ path)) : gset string)
                   = list_to_set (covFunc c cp)
                     ∪ newItems c (contextPrefix c ++ path)).
  { apply set_eq. intros x.
    rewrite elem_of_union. unfold newItems.
    rewrite !elem_of_list_to_set, !list_elem_of_In, filter_In.
    rewrite (up_to_date_isNew c x Hup Hlen). fold cp.
    rewrite contextPrefix_lastn. fold cp. split.
    - intros Hx. destruct (in_dec string_dec x (covFunc c cp)) as [Hin|Hnot];
        [by left|right].
      split; [|done]. by destruct (covFunc_windowed c cp path x Hlocal Hx).
    - intros [Hx|[Hx _]]; [by apply covFunc_monotone|].
      unfold lastn in Hx.
      rewrite <- (take_drop (length cp - Z.to_nat (historyLen c)) cp),
        <- app_assoc.
      apply covFunc_suffix; [done| |done].
      by rewrite app_assoc, take_drop. }
  rewrite Hsplit, size_union; [lia|].
  intros x Hx1 Hx2. unfold newItems in Hx2.
  rewrite elem_of_list_to_set, list_elem_of_In in Hx1.
  rewrite elem_of_list_to_set, list_elem_of_In, filter_In in Hx2.
  destruct Hx2 as [_ Hnew]. by apply (up_to_date_isNew c x Hup Hlen) in Hnew.
Qed.

(** X12. The history window makes the estimate exact. For a Coverer
    built by the exported methods whose histogram is up to date, and a
    candidate that continues the covered path as a chain, the
    [MaxIncrease] that [EstimateCoverageIncrease] computes from the last
    [historyLen] covered steps and the candidate is exactly what
    [Coverage()] gains when the candidate is marked covered and the
    coverage updated (the items being no more than an [int] can
    count). *)
Theorem estimate_is_exact (c c' : Coverer) (path : Path)
    (est : CoverageIncreaseStats) :
  reachable c -> up_to_date c ->
  chained (elems (coveredPath c) ++ path) ->
  (Z.of_nat (length (covFunc c (elems (coveredPath c)))) <= maxInt)%Z ->
  EstimateCoverageIncrease c path = Ok (est, c') ->
  Coverage (UpdateCoverage (MarkCovered c path))
  = (Coverage c + MaxIncrease est)%Z.
Proof.
  intros Hreach Hup Hch Hlen Hest.
  apply EstimateCoverageIncrease_inv in Hest as (_ & -> & _).
  rewrite statsOf_MaxIncrease. by apply Coverage_gain.
Qed.

(** ** cover.go: what running a returned path gains *)

Lemma estimateLoop_prefixes (c : Coverer) (pwh : Path) (h : nat) :
  Forall monotone (covFuncs c) ->
  forall (n k : nat) (est : CoverageIncreaseStats) (first : gmap string Z),
    MaxStep est = (-1)%Z ->
    dom first ⊆ newItems c (take (h + k) pwh) ->
    ((0 <= FirstStep est)%Z ->
     FirstIncrease est
     = Z.of_nat (size (newItems c (take (h + Z.to_nat (FirstStep est) + 1) pwh)))) ->
    let r := estimateLoop c pwh (Z.of_nat h) n (Z.of_nat (h + k)) est first in
    ((0 <= FirstStep r)%Z ->
     FirstIncrease r
     = Z.of_nat (size (newItems c (take (h + Z.to_nat (FirstStep r) + 1) pwh)))) /\
    ((0 <= MaxStep r)%Z ->
     MaxIncrease est
     = Z.of_nat (size (newItems c (take (h + Z.to_nat (MaxStep r) + 1) pwh)))).
Proof.
  intros Hmono. induction n as [|n IH]; intros k est first Hmax Hdom Hfirst.
  - cbn. split; [done|]. lia.
  - cbn [estimateLoop].
    replace (Z.to_nat (Z.of_nat (h + k) + 1)) with (h + k + 1)%nat by lia.
    set (first' := countNew c (covFunc c (take (h + k + 1) pwh)) first).
    assert (Hdom' : dom first' = newItems c (take (h + k + 1) pwh)).
    { unfold first'. rewrite countNew_dom. fold (newItems c (take (h + k + 1) pwh)).
      pose proof (newItems_prefix c (take (h + k + 1) pwh) (h + k) Hmono) as Hsub.
      rewrite take_take in Hsub.
      replace (Nat.min (h + k) (h + k + 1)) with (h + k)%nat in Hsub by lia.
      set_solver. }
    assert (Hsize : Z.of_nat (size first')
                    = Z.of_nat (size (newItems c (take (h + k + 1) pwh)))).
    { by rewrite <- size_dom, Hdom'. }
    set (est' := if ((FirstStep est =? -1) && (0 <? Z.of_nat (size first')))%Z
                 then {| MaxStep := MaxStep est;
                         MaxIncrease := MaxIncrease est;
                         FirstStep := Z.of_nat (h + k) - Z.of_nat h;
                         FirstIncrease := Z.of_nat (size first') |}
                 else est).
    assert (Hest' : MaxStep est' = (-1)%Z /\ MaxIncrease est' = MaxIncrease est /\
      ((0 <= FirstStep est')%Z ->
       FirstIncrease est'
       = Z.of_nat (size (newItems c
                           (take (h + Z.to_nat (FirstStep est') + 1) pwh))))).
    { unfold est'. destruct ((FirstStep est =? -1) && _)%Z; [|done].
      cbn. split; [done|]. split; [done|]. intros _.
      replace (h + Z.to_nat (Z.of_nat (h + k) - Z.of_nat h) + 1)%nat
        with (h + k + 1)%nat by lia.
      exact Hsize. }
    destruct Hest' as (Hmax' & HM' & Hfirst').
    fold est'. rewrite Hmax', HM'.
    change ((-1 =? -1)%Z) with true. cbn [andb].
    destruct (Z.eqb_spec (Z.of_nat (size first')) (MaxIncrease est)) as [Heq|Hneq].
    + cbn [MaxStep MaxIncrease FirstStep FirstIncrease]. split; [done|].
      intros _.
      replace (h + Z.to_nat (Z.of_nat (h + k) - Z.of_nat h) + 1)%nat
        with (h + k + 1)%nat by lia.
      by rewrite <- Heq.
    + replace (Z.of_nat (h + k) + 1)%Z with (Z.of_nat (h + S k)) by lia.
      destruct (IH (S k) est' first') as [Hr1 Hr2]; try done.
      * replace (h + S k)%nat with (h + k + 1)%nat by lia. by rewrite Hdom'.
      * split; [done|]. by rewrite <- HM'.
Qed.

Lemma statsOf_prefixes (c : Coverer) (path : Path) :
  Forall monotone (covFuncs c) ->
  ((0 <= FirstStep (statsOf c path))%Z ->
   FirstIncrease (statsOf c path)
   = Z.of_nat (size (newItems c
       (contextPrefix c ++ take (Z.to_nat (FirstStep (statsOf c path)) + 1) path)))) /\
  ((0 <= MaxStep (statsOf c path))%Z ->
   MaxIncrease (statsOf c path)
   = Z.of_nat (size (newItems c
       (contextPrefix c ++ take (Z.to_nat (MaxStep (statsOf c path)) + 1) path)))).
Proof.
  intros Hmono.
  pose proof (estimateLoop_prefixes c (contextPrefix c ++ path)
                (length (contextPrefix c)) Hmono (length path) 0%nat
                {| MaxStep := -1;
                   MaxIncrease :=
                     Z.of_nat (size (countNew c (covFunc c (contextPrefix c ++ path)) ∅));
                   FirstStep := -1;
                   FirstIncrease := 0 |}
                ∅) as Hb.
  rewrite Nat.add_0_r, (contextPrefix_length c) in Hb. cbn zeta in Hb.
  fold (statsOf c path) in Hb.
  destruct Hb as [Hf Hm]; [done|set_solver|cbn; lia|].
  assert (Htake : forall n, take (length (contextPrefix c) + n + 1)
                                 (contextPrefix c ++ path)
                            = contextPrefix c ++ take (n + 1) path).
  { intros n. rewrite <- Nat.add_assoc. by rewrite take_app_add. }
  split.
  - intros Hge. rewrite (Hf Hge). by rewrite Htake.
  - intros Hge. rewrite <- Htake, <- (Hm Hge).
    by rewrite statsOf_MaxIncrease, <- countNew_size.
Qed.

Lemma chained_take (p q : Path) (n : nat) :
  chained (p ++ q) -> chained (p ++ take n q).
Proof.
  intros Hch i a b Ha Hb.
  assert (Hpre : p ++ take n q = take (length p + n) (p ++ q))
    by (by rewrite take_app_add).
  rewrite Hpre in Ha, Hb.
  apply lookup_take_Some in Ha as [Ha _]. apply lookup_take_Some in Hb as [Hb _].
  by apply (Hch i).
Qed.

(** X14. Running the returned path pays what the statistics promise.
    For a Coverer built by the exported methods whose histogram is up
    to date, and a candidate that continues the covered path as a
    chain and has a non-zero [MaxIncrease]: marking its steps up to
    and including [FirstStep] covered and updating raises
    [Coverage()] by exactly [FirstIncrease], which is at least 1, and
    doing so up to and including [MaxStep] raises it by exactly
    [MaxIncrease], as much as the whole candidate would. *)
Theorem prefix_gains (c c' : Coverer) (path : Path) (est : CoverageIncreaseStats) :
  reachable c -> up_to_date c ->
  chained (elems (coveredPath c) ++ path) ->
  (Z.of_nat (length (covFunc c (elems (coveredPath c)))) <= maxInt)%Z ->
  EstimateCoverageIncrease c path = Ok (est, c') ->
  MaxIncrease est <> 0%Z ->
  Coverage (UpdateCoverage
              (MarkCovered c (take (Z.to_nat (FirstStep est) + 1) path)))
  = (Coverage c + FirstIncrease est)%Z /\
  (1 <= FirstIncrease est)%Z /\
  Coverage (UpdateCoverage
              (MarkCovered c (take (Z.to_nat (MaxStep est) + 1) path)))
  = (Coverage c + MaxIncrease est)%Z.
Proof.
  intros Hreach Hup Hch Hlen Hest Hnz.
  pose proof (reachable_inv c Hreach) as (Hh & Hmono & _).
  apply EstimateCoverageIncrease_inv in Hest as (_ & -> & _).
  assert (Hne : path <> []).
  { intros ->. apply Hnz. clear Hnz.
    rewrite statsOf_MaxIncrease, app_nil_r.
    pose proof (Coverage_gain c [] Hreach Hup Hch Hlen) as Hgain.
    rewrite app_nil_r in Hgain.
    assert (Hsame : Coverage (UpdateCoverage (MarkCovered c [])) = Coverage c).
    { unfold Coverage. cbn [UpdateCoverage MarkCovered coverCount coveredPath].
      rewrite append_elems, app_nil_r.
      replace (covFunc (MarkCovered c [])) with (covFunc c) by done.
      change (fold_left incr (covFunc c (elems (coveredPath c))) ∅)
        with (coverCount (UpdateCoverage c)).
      by rewrite <- Hup. }
    lia. }
  destruct (statsOf_bounds c path Hmono Hne) as (Hm & Hf & Hpos & _).
  specialize (Hpos Hnz). destruct Hpos as [Hf0 Hfi].
  destruct (statsOf_prefixes c path Hmono) as [Hfirst Hmax].
  split; [|split; [lia|]].
  - rewrite (Coverage_gain c _ Hreach Hup (chained_take _ _ _ Hch) Hlen).
    rewrite (Hfirst Hf0). done.
  - rewrite (Coverage_gain c _ Hreach Hup (chained_take _ _ _ Hch) Hlen).
    f_equal. symmetry. apply Hmax. lia.
Qed.

(** ** cover.go: exhaustion *)

Lemma BestPath_loop_none_left (c : Coverer) (paths : list Path) :
  (0 <= historyLen c)%Z ->
  forall (c1 : Coverer) (bestPath bestPath' : Path) (c2 : Coverer),
    same_view c c1 ->
    BestPath_loop c1 paths bestPath None = Ok (bestPath', None, c2) ->
    forall q, In q paths -> MaxIncrease (statsOf c q) = 0%Z.
Proof.
  intros Hh. induction paths as [|path paths IH];
    intros c1 bestPath bestPath' c2 Hview; [by intros _ q []|].
  destruct (BestPath_loop_step c c1 path paths bestPath None Hh Hview)
    as (c1' & Hview' & ->).
  cbn zeta. destruct (Z.eqb_spec (MaxIncrease (statsOf c path)) 0) as [Hz|Hnz].
  - intros Hloop q [<-|Hq]; [done|]. by apply (IH c1' bestPath bestPath' c2).
  - destruct (randomness c >=? BestPathRandomAmongAnyPath)%Z; [done|].
    intros Hloop. exfalso.
    destruct (BestPath_loop_sound c paths Hh c1' path (Some (statsOf c path)) Hview')
      as (bp & b & c3 & Hloop' & _ & Hres & _).
    rewrite Hloop' in Hloop. injection Hloop as -> -> ->.
    by destruct Hres as [[= _ ?]|(_ & ? & _)].
Qed.

(** X15. The exhaustion signal means what it says, in every randomness
    mode: when [BestPath] returns without statistics, the path it
    returns is nil and every candidate [Model.Paths] returned has an
    estimated [MaxIncrease] of 0. *)
Theorem BestPath_exhausted (fuel : nat) (c c' : Coverer) (m : Model) (s : State)
    (maxLen : Z) (paths : list Path) (bestPath : Path) :
  (0 <= historyLen c)%Z ->
  Paths fuel m s maxLen = Ok paths ->
  BestPath fuel c m s maxLen = Ok (bestPath, None, c') ->
  bestPath = [] /\
  forall q est, In q paths -> estimated c q est -> MaxIncrease est = 0%Z.
Proof.
  intros Hh Hpaths. unfold BestPath. rewrite Hpaths.
  cbn [mbind result_bind]. unfold BestPath_among.
  destruct (if negb (randomness c =? BestPathRandomNone)%Z
            then ShufflePaths c paths else Ok (paths, c))
    as [[paths1 c1]| |] eqn:Hsh; [|done..].
  apply BestPath_order in Hsh as (Hperm & Hcp & Hcount & Hfuncs & Hhl & Hrnd & _).
  cbn [mbind result_bind].
  assert (Hstats : forall q, statsOf c1 q = statsOf c q).
  { intros q. apply statsOf_ext; congruence. }
  assert (Hh1 : (0 <= historyLen c1)%Z) by (by rewrite Hhl).
  destruct (BestPath_loop_sound c1 paths1 Hh1 c1 [] None (same_view_refl c1))
    as (bp & b & c2 & Hloop & _ & Hres & _).
  rewrite Hloop. cbn [mbind result_bind].
  destruct Hres as [[= -> ->]|(Hbp & -> & Hne)].
  - cbn [length Nat.eqb]. intros [= <- <-]. split; [done|].
    intros q est Hq Hest. apply estimated_statsOf in Hest as ->; [|done].
    rewrite <- Hstats.
    apply (BestPath_loop_none_left c1 paths1 Hh1 c1 [] [] c2 (same_view_refl c1) Hloop).
    apply list_elem_of_In. rewrite Hperm. by apply list_elem_of_In.
  - assert (Hnonempty : bp <> []).
    { apply (Paths_nonempty fuel m s maxLen paths); [done|].
      apply list_elem_of_In. rewrite <- Hperm. by apply list_elem_of_In. }
    destruct bp as [|step bp]; [done|]. cbn [length Nat.eqb]. done.
Qed.

End MoreProperties.

(** ** The two player models *)

Lemma Paths_same_steps {State : Type} (m m' : Model State) :
  (forall s, StepsFrom m s = StepsFrom m' s) ->
  forall (fuel : nat) (s : State) (maxLen : Z),
    Paths fuel m s maxLen = Paths fuel m' s maxLen.
Proof.
  intros Hsteps. induction fuel as [|fuel IH]; intros s maxLen; [done|].
  cbn [Paths]. rewrite Hsteps.
  destruct (maxLen =? 0)%Z; [done|]. f_equal.
  generalize (@nil (Path State)) as paths.
  induction (StepsFrom m' s) as [|step steps IHsteps]; intros paths; [done|].
  cbn [Paths_loop]. rewrite IH. unfold mbind, result_bind.
  destruct (Paths fuel m' (EndState step) (int_sub maxLen 1)); try done.
  destruct (length a =? 0)%nat; apply IHsteps.
Qed.

(** X13. The player model written with [When], [OnAction] and [Do] is
    the player model written with raw transitions: from every state
    they offer the same steps in the same order, so [Model.Paths]
    returns the same paths for them, and [BestPath] the same result. *)
Theorem player_models_agree {rt : GoRuntime} :
  (forall s : PlayerState,
     StepsFrom newPlayerModelWithWhenOnAction s
     = StepsFrom newPlayerModelWithRawTransitions s) /\
  (forall (fuel : nat) (s : PlayerState) (maxLen : Z),
     Paths fuel newPlayerModelWithWhenOnAction s maxLen
     = Paths fuel newPlayerModelWithRawTransitions s maxLen) /\
  (forall (fuel : nat) (c : Coverer PlayerState) (s : PlayerState) (maxLen : Z),
     BestPath fuel c newPlayerModelWithWhenOnAction s maxLen
     = BestPath fuel c newPlayerModelWithRawTransitions s maxLen).
Proof.
  assert (Hsteps : forall s : PlayerState,
            StepsFrom newPlayerModelWithWhenOnAction s
            = StepsFrom newPlayerModelWithRawTransitions s).
  { intros [pl sg].
    unfold StepsFrom, TransitionsFrom, newPlayerModelWithWhenOnAction,
      newPlayerModelWithRawTransitions, From, NewModel, When, Do, OnAction,
      play, pause, nextsong, prevsong, setState.
    cbn [gen app fold_left playing song tr_stateChange tr_action negb].
    destruct pl;
      destruct (Z.ltb_spec sg 3), (Z.geb_spec sg 3); try lia;
      destruct (Z.gtb_spec sg 1), (Z.leb_spec sg 1); try lia; reflexivity. }
  split; [exact Hsteps|]. split.
  - by apply Paths_same_steps.
  - intros fuel c s maxLen. unfold BestPath.
    by rewrite (Paths_same_steps _ _ Hsteps).
Qed.

(** ** The further properties at work on the player model *)

Lemma Paths_maximal_runs_witness :
  exists paths : list (Path PlayerState),
    Paths 3 newPlayerModelWithRawTransitions state0 2 = Ok paths /\
    forall p, In p paths
              <-> maximal_run newPlayerModelWithRawTransitions (Z.to_nat 2) state0 p.
Proof.
  apply (Paths_maximal_runs 3 newPlayerModelWithRawTransitions state0 2).
  - unfold maxInt. lia.
  - simpl. lia.
Defined.

Lemma IterPaths_yields_Paths_witness :
  exists paths : list (Path PlayerState),
    Walker_Paths (rt := exampleRuntime) 3
      (NewWalker newPlayerModelWithRawTransitions) state0 2
    = Ok (map (fmap Some) paths) /\
    Forall (fun p => (Z.of_nat (length p) <= 2)%Z) paths /\
    forall (A : Type) (yield : A -> PathBuf PlayerState -> A * bool) (a : A),
      IterPaths (rt := exampleRuntime) yield 3
        (NewWalker newPlayerModelWithRawTransitions) state0 2 a
      = Ok (fst (feed yield a (map (fmap Some) paths))).
Proof.
  apply (IterPaths_yields_Paths (rt := exampleRuntime) 3
           (NewWalker newPlayerModelWithRawTransitions) state0 2).
  - unfold maxInt. lia.
  - vm_compute. discriminate.
  - simpl. lia.
Defined.

Lemma ShufflePaths_permutes_witness :
  exists paths' c',
    ShufflePaths covererShuffling [[stepPlay]; [stepPlay; stepPause]; []]
    = Ok (paths', c') /\
    paths' ≡ₚ [[stepPlay]; [stepPlay; stepPause]; []] /\
    coveredPath c' = coveredPath covererShuffling /\
    coverCount c' = coverCount covererShuffling /\
    covFuncs c' = covFuncs covererShuffling /\
    historyLen c' = historyLen covererShuffling /\
    randomness c' = randomness covererShuffling /\
    (rand covererShuffling = None ->
     paths' = [[stepPlay]; [stepPlay; stepPause]; []] /\ c' = covererShuffling).
Proof.
  apply (ShufflePaths_permutes (ShuffleInRange0 := exampleRuntime_in_range)
           covererShuffling [[stepPlay]; [stepPlay; stepPause]; []]).
Defined.

Lemma BestPath_frame_witness :
  exists r c',
    BestPath 3 covererActions newPlayerModelWithRawTransitions state0 2 = Ok (r, c') /\
    elems (coveredPath c') = elems (coveredPath covererActions) /\
    cap (coveredPath c') = cap (coveredPath covererActions) /\
    coverCount c' = coverCount covererActions /\
    covFuncs c' = covFuncs covererActions /\
    historyLen c' = historyLen covererActions /\
    randomness c' = randomness covererActions /\
    (randomness covererActions = BestPathRandomNone -> rand c' = rand covererActions).
Proof.
  assert (Hret : match BestPath 3 covererActions newPlayerModelWithRawTransitions
                         state0 2 with
                 | Ok _ => true
                 | _ => false
                 end = true) by (vm_compute; reflexivity).
  destruct (BestPath 3 covererActions newPlayerModelWithRawTransitions state0 2)
    as [[r c']| |] eqn:Hbest; try discriminate Hret.
  exists r, c'. split; [reflexivity|].
  apply (BestPath_frame 3 covererActions c' newPlayerModelWithRawTransitions
           state0 2 r).
  - vm_compute. discriminate.
  - exact Hbest.
Defined.

Lemma BestPath_MaxIncrease_maximal_witness :
  exists bestPath best c',
    BestPath 2 covererActions newPlayerModelWithRawTransitions state0 1
    = Ok (bestPath, best, c') /\
    exists e, best = Some e /\ estimated covererActions bestPath e /\
              (MaxIncrease (statsOf covererActions [stepPlay]) <= MaxIncrease e)%Z.
Proof.
  assert (Hret : match BestPath 2 covererActions newPlayerModelWithRawTransitions
                         state0 1 with
                 | Ok _ => true
                 | _ => false
                 end = true) by (vm_compute; reflexivity).
  destruct (BestPath 2 covererActions newPlayerModelWithRawTransitions state0 1)
    as [[[bestPath best] c']| |] eqn:Hbest; try discriminate Hret.
  exists bestPath, best, c'. split; [reflexivity|].
  apply (BestPath_MaxIncrease_maximal 2 covererActions c'
           newPlayerModelWithRawTransitions state0 1
           (pathsN newPlayerModelWithRawTransitions 1 state0) bestPath best)
    with (p := [stepPlay]).
  - vm_compute. discriminate.
  - vm_compute. reflexivity.
  - vm_compute. reflexivity.
  - exact Hbest.
  - left. reflexivity.
  - apply estimated_statsOf; [vm_compute; discriminate|reflexivity].
  - vm_compute. discriminate.
Defined.

Lemma BestPath_any_path_first_witness :
  exists shuffled c1,
    ShufflePaths covererAnyPath (pathsN newPlayerModelWithRawTransitions 2 state0)
    = Ok (shuffled, c1) /\
    exists bestPath best c',
      BestPath 3 covererAnyPath newPlayerModelWithRawTransitions state0 2
      = Ok (bestPath, best, c') /\
      match best with
      | None =>
          bestPath = [] /\
          forall q est,
            In q (pathsN newPlayerModelWithRawTransitions 2 state0) ->
            estimated covererAnyPath q est -> MaxIncrease est = 0%Z
      | Some e =>
          exists k : nat,
            shuffled !! k = Some bestPath /\ estimated covererAnyPath bestPath e /\
            MaxIncrease e <> 0%Z /\
            forall (j : nat) (q : Path PlayerState) (est : CoverageIncreaseStats),
              (j < k)%nat -> shuffled !! j = Some q ->
              estimated covererAnyPath q est -> MaxIncrease est = 0%Z
      end.
Proof.
  destruct (ShufflePaths_Ok covererAnyPath
              (pathsN newPlayerModelWithRawTransitions 2 state0))
    as (shuffled & c1 & Hsh & _).
  exists shuffled, c1. split; [exact Hsh|].
  apply (BestPath_any_path_first 3 covererAnyPath c1
           newPlayerModelWithRawTransitions state0 2
           (pathsN newPlayerModelWithRawTransitions 2 state0) shuffled).
  - vm_compute. discriminate.
  - vm_compute. discriminate.
  - vm_compute. reflexivity.
  - exact Hsh.
Defined.

Lemma EstimateCoverageIncrease_bounds_witness :
  exists est c',
    EstimateCoverageIncrease covererStates [stepPlay; stepPause] = Ok (est, c') /\
    (0 <= MaxStep est < Z.of_nat (length [stepPlay; stepPause]))%Z /\
    (-1 <= FirstStep est <= MaxStep est)%Z /\
    (MaxIncrease est <> 0%Z ->
     (0 <= FirstStep est)%Z /\ (1 <= FirstIncrease est <= MaxIncrease est)%Z) /\
    (MaxIncrease est = 0%Z -> FirstStep est = (-1)%Z /\ FirstIncrease est = 0%Z).
Proof.
  destruct (EstimateCoverageIncrease_Ok covererStates [stepPlay; stepPause])
    as (c' & Hest & _); [vm_compute; discriminate|].
  exists (statsOf covererStates [stepPlay; stepPause]), c'. split; [exact Hest|].
  apply (EstimateCoverageIncrease_bounds covererStates c' [stepPlay; stepPause]).
  - apply reach_CoverStates, reach_CoverActions, reach_NewCoverer.
  - discriminate.
  - exact Hest.
Defined.

Lemma BestPath_stats_in_range_witness :
  exists bestPath est c',
    BestPath 3 covererStates newPlayerModelWithRawTransitions state0 2
    = Ok (bestPath, Some est, c') /\
    (0 <= FirstStep est <= MaxStep est)%Z /\
    (MaxStep est < Z.of_nat (length bestPath))%Z /\
    (1 <= FirstIncrease est <= MaxIncrease est)%Z.
Proof.
  assert (Hret : match BestPath 3 covererStates newPlayerModelWithRawTransitions
                         state0 2 with
                 | Ok (_, Some _, _) => true
                 | _ => false
                 end = true) by (vm_compute; reflexivity).
  destruct (BestPath 3 covererStates newPlayerModelWithRawTransitions state0 2)
    as [[[bestPath [est|]] c']| |] eqn:Hbest; try discriminate Hret.
  exists bestPath, est, c'. split; [reflexivity|].
  apply (BestPath_stats_in_range 3 covererStates c'
           newPlayerModelWithRawTransitions state0 2 bestPath est).
  - apply reach_CoverStates, reach_CoverActions, reach_NewCoverer.
  - exact Hbest.
Defined.

Lemma UpdateCoverage_histogram_witness :
  count (coverCount (UpdateCoverage covererPlayed)) "play"
  = Z.of_nat (occurrences "play"
                (covFunc covererPlayed (elems (coveredPath covererPlayed)))).
Proof.
  apply (UpdateCoverage_histogram covererPlayed "play").
  vm_compute. discriminate.
Defined.

Lemma estimate_is_exact_witness :
  exists est c',
    EstimateCoverageIncrease covererPairs [stepPause; stepPlay] = Ok (est, c') /\
    Coverage (UpdateCoverage (MarkCovered covererPairs [stepPause; stepPlay]))
    = (Coverage covererPairs + MaxIncrease est)%Z.
Proof.
  destruct (EstimateCoverageIncrease_Ok covererPairs [stepPause; stepPlay])
    as (c' & Hest & _); [vm_compute; discriminate|].
  exists (statsOf covererPairs [stepPause; stepPlay]), c'. split; [exact Hest|].
  apply (estimate_is_exact covererPairs c' [stepPause; stepPlay]).
  - apply reach_UpdateCoverage, reach_MarkCovered, reach_CoverActionCombinations;
      [apply reach_NewCoverer|unfold maxInt; lia].
  - reflexivity.
  - change (elems (coveredPath covererPairs) ++ [stepPause; stepPlay])
      with [stepPlay; stepPause; stepPlay].
    apply chained_cons;
      [apply chained_cons; [apply chained_cons; [apply chained_nil|]|]|].
    + intros b Hb. discriminate Hb.
    + intros b Hb. injection Hb as <-. reflexivity.
    + intros b Hb. injection Hb as <-. reflexivity.
  - vm_compute. discriminate.
  - exact Hest.
Defined.

Lemma prefix_gains_witness :
  exists est c',
    EstimateCoverageIncrease covererPlayed [stepPause; stepPlay] = Ok (est, c') /\
    Coverage (UpdateCoverage
                (MarkCovered covererPlayed
                   (take (Z.to_nat (FirstStep est) + 1) [stepPause; stepPlay])))
    = (Coverage covererPlayed + FirstIncrease est)%Z /\
    (1 <= FirstIncrease est)%Z /\
    Coverage (UpdateCoverage
                (MarkCovered covererPlayed
                   (take (Z.to_nat (MaxStep est) + 1) [stepPause; stepPlay])))
    = (Coverage covererPlayed + MaxIncrease est)%Z.
Proof.
  destruct (EstimateCoverageIncrease_Ok covererPlayed [stepPause; stepPlay])
    as (c' & Hest & _); [vm_compute; discriminate|].
  exists (statsOf covererPlayed [stepPause; stepPlay]), c'. split; [exact Hest|].
  apply (prefix_gains covererPlayed c' [stepPause; stepPlay]).
  - apply reach_UpdateCoverage, reach_MarkCovered, reach_CoverActions,
      reach_NewCoverer.
  - reflexivity.
  - change (elems (coveredPath covererPlayed) ++ [stepPause; stepPlay])
      with [stepPlay; stepPause; stepPlay].
    apply chained_cons;
      [apply chained_cons; [apply chained_cons; [apply chained_nil|]|]|].
    + intros b Hb. discriminate Hb.
    + intros b Hb. injection Hb as <-. reflexivity.
    + intros b Hb. injection Hb as <-. reflexivity.
  - vm_compute. discriminate.
  - exact Hest.
  - vm_compute. discriminate.
Defined.

Lemma BestPath_exhausted_witness :
  exists bestPath c',
    BestPath 3 covererAllActions newPlayerModelWithRawTransitions state0 2
    = Ok (bestPath, None, c') /\
    bestPath = [] /\
    forall q est,
      In q (pathsN newPlayerModelWithRawTransitions 2 state0) ->
      estimated covererAllActions q est -> MaxIncrease est = 0%Z.
Proof.
  assert (Hret : match BestPath 3 covererAllActions newPlayerModelWithRawTransitions
                         state0 2 with
                 | Ok (_, None, _) => true
                 | _ => false
                 end = true) by (vm_compute; reflexivity).
  destruct (BestPath 3 covererAllActions newPlayerModelWithRawTransitions state0 2)
    as [[[bestPath [est|]] c']| |] eqn:Hbest; try discriminate Hret.
  exists bestPath, c'. split; [reflexivity|].
  apply (BestPath_exhausted 3 covererAllActions c'
           newPlayerModelWithRawTransitions state0 2
           (pathsN newPlayerModelWithRawTransitions 2 state0) bestPath).
  - vm_compute. discriminate.
  - vm_compute. reflexivity.
  - exact Hbest.
Defined.
